(** * synthetic_capture: pose sweep and capture sequencing

    A shallow embedding of [src/utils/scripts/synthetic_capture.py].

    Python floats are read as real numbers ([R]): rounding is not part of
    the model, so the geometric statements below are statements about the
    formulas the script evaluates.  The ROS / Gazebo / OpenCV calls are
    collaborators of the script; they are modelled as transitions of an
    abstract world, each of which either returns or raises.

    The model starts at line 69 of the script, with the parsed command
    line as its input: argument parsing, node initialisation and the wait
    for the two Gazebo services (lines 25-55) come before it.  Log lines
    are left out; they do not influence the control flow.

    The script is modelled twice.  [main] is the run on a host on which
    the two calls made outside any [try], [os.makedirs] and [time.sleep],
    always return, as they do for an output directory that can be created
    and a settle delay that is not negative.  [Uncaught.main] is the run
    on any host: it ends at the first of these calls that raises.  The two
    agree: a run that completes is the run of [main], and the trace of a
    run that dies is a beginning of it. *)

From Stdlib Require Import Reals Lra Lia List String Ascii ZArith Bool Arith.
From Stdlib Require Import DecimalString DecimalNat.
Import ListNotations.

Open Scope R_scope.

(** ** Geometry *)

Module Geometry.

(** [math.atan2(y, x)] on the reals: the angle in (-PI, PI] of the point
    (x, y); [atan2(0, 0)] is 0. *)
Definition atan2 (y x : R) : R :=
  if Rlt_dec 0 x then atan (y / x)
  else if Rlt_dec x 0 then
    if Rle_dec 0 y then atan (y / x) + PI else atan (y / x) - PI
  else
    if Rlt_dec 0 y then PI / 2
    else if Rlt_dec y 0 then - (PI / 2)
    else 0.

(** [math.radians]. *)
Definition radians (deg : R) : R := deg * (PI / 180).

(** [quat_from_yaw]: yaw-only quaternion (x = y = 0). *)
Definition quat_from_yaw (yaw : R) : R * R * R * R :=
  (0, 0, sin (yaw * 0.5), cos (yaw * 0.5)).

(** Lines 106-108: the car position on the circle around the sign. *)
Definition car_position (sx sy sz radius h ang : R) : R * R * R :=
  let cx := sx + radius * cos ang in
  let cy := sy + radius * sin ang in
  let cz := sz + h in
  (cx, cy, cz).

(** Line 112: the yaw that points from the car to the sign. *)
Definition car_yaw (sx sy sz radius h ang : R) : R :=
  let '(cx, cy, _) := car_position sx sy sz radius h ang in
  atan2 (sy - cy) (sx - cx).

(** What [2*atan2(z, w)] gives back from the encoding of [yaw]. *)
Definition yaw_from_quat (q : R * R * R * R) : R :=
  let '(_, _, z, w) := q in 2 * atan2 z w.

End Geometry.

Import Geometry.

(** ** Data model *)

(** [geometry_msgs/Point], [Quaternion], [Pose] and the fields of
    [gazebo_msgs/ModelState] that the script sets. *)
Record Point := { pos_x : R; pos_y : R; pos_z : R }.
Record Quaternion := { ori_x : R; ori_y : R; ori_z : R; ori_w : R }.
Record Pose := { position : Point; orientation : Quaternion }.
Record ModelState :=
  { model_name : string; pose : Pose; reference_frame : string }.

(** The parsed command line.  [heights] and [angles_deg] hold the numbers
    obtained by splitting the comma separated flags (lines 48-49);
    [shots_per_pose] is a Python [int], so it may be zero or negative. *)
Record Args := {
  image_topic : string;
  car_model : string;
  output_dir : string;
  radius : R;
  heights : list R;
  angles_deg : list R;
  shots_per_pose : Z;
  sleep : R
}.

(** A call of a collaborator inside [try] either returns or raises. *)
Inductive Outcome (A : Type) : Type :=
| Returned (a : A)
| Raised.
Arguments Returned {A} a.
Arguments Raised {A}.

Definition returned {A} (o : Outcome A) : bool :=
  match o with Returned _ => true | Raised => false end.

(** The collaborators, as transitions of an abstract world.  [get_state]
    and [set_state] are the two Gazebo service proxies, [wait_for_message]
    is [rospy.wait_for_message], [imgmsg_to_cv2] the [CvBridge] conversion,
    [imwrite] is [cv2.imwrite] (its return value is discarded by the
    script), [makedirs] is [os.makedirs(path, exist_ok=True)] and
    [time_sleep] is [time.sleep].  The last two are called outside any
    [try]; these two fields say what they do when they return, and
    [Unguarded] and [Uncaught] below say what happens when they raise. *)
Class Simulator (World Image CvImage : Type) := {
  get_state : string -> string -> World -> Outcome Pose * World;
  set_state : ModelState -> World -> Outcome unit * World;
  wait_for_message : string -> R -> World -> Outcome Image * World;
  imgmsg_to_cv2 : Image -> string -> Outcome CvImage;
  imwrite : string -> CvImage -> World -> Outcome unit * World;
  makedirs : string -> World -> World;
  time_sleep : R -> World -> World
}.

(** ** Paths and file names *)

Definition starts_with_slash (s : string) : bool :=
  match s with
  | String c _ => Ascii.eqb c "/"
  | EmptyString => false
  end.

Fixpoint ends_with_slash (s : string) : bool :=
  match s with
  | EmptyString => false
  | String c EmptyString => Ascii.eqb c "/"
  | String _ s' => ends_with_slash s'
  end.

(** [os.path.join] of two components (POSIX). *)
Definition path_join (a b : string) : string :=
  if starts_with_slash b then b
  else if (String.eqb a EmptyString || ends_with_slash a)%bool then (a ++ b)%string
  else (a ++ "/" ++ b)%string.

Fixpoint zeros (n : nat) : string :=
  match n with
  | O => EmptyString
  | S n' => String "0" (zeros n')
  end.

(** The format [{idx:04d}] for a non-negative [idx]. *)
Definition fmt_04d (idx : nat) : string :=
  let digits := NilEmpty.string_of_uint (Nat.to_uint idx) in
  (zeros (4 - String.length digits) ++ digits)%string.

(** Lines 145-146. *)
Definition file_path (out_label_dir sign_name : string) (idx : nat) : string :=
  let filename := (sign_name ++ "_" ++ fmt_04d idx ++ ".png")%string in
  path_join out_label_dir filename.

(** [range(n)] *)
Definition range (n : Z) : list nat := seq 0 (Z.to_nat n).

(** Lines 61-67. *)
Definition stop_signs : list string :=
  ["STOP_A"; "STOP_C"; "STOP_E"; "STOP_G"; "STOP_W"; "STOP_Y"; "STOP_Z"]%string.
Definition parking_signs : list string :=
  ["PRK_P1"; "PRK_P2"; "PRK_P3"; "PRK_P4"]%string.
Definition targets : list (string * list string) :=
  [("STOP", stop_signs); ("PARKING", parking_signs)]%string.

(** ** The script *)

Section Script.

Context {World Image CvImage : Type} {sim : Simulator World Image CvImage}.
Variable args : Args.

(** What the run does to its collaborators, in order. *)
Inductive Event : Type :=
| EnsureDir (path : string)
| WaitForMessage (topic : string) (timeout : R) (res : Outcome Image)
| GetState (name frame : string) (res : Outcome Pose)
| SetState (ms : ModelState) (res : Outcome unit)
| Sleep (secs : R)
| Imwrite (path : string) (img : CvImage) (res : Outcome unit).

Definition Trace : Type := list Event.

(** A computation reads the world and yields a value, the new world and
    the events it caused. *)
Definition M (A : Type) : Type := World -> A * World * Trace.

Definition ret {A} (a : A) : M A := fun w => (a, w, []).

Definition bind {A B} (m : M A) (k : A -> M B) : M B :=
  fun w =>
    let '(a, w1, t1) := m w in
    let '(b, w2, t2) := k a w1 in
    (b, w2, t1 ++ t2).

Notation "x <- m ;; k" := (bind m (fun x => k))
  (at level 61, m at next level, right associativity).
Notation "m ;; k" := (bind m (fun _ => k))
  (at level 61, right associativity).

Definition value_of {A} (m : M A) (w : World) : A := fst (fst (m w)).
Definition world_after {A} (m : M A) (w : World) : World := snd (fst (m w)).
Definition trace_of {A} (m : M A) (w : World) : Trace := snd (m w).

(** A [for] loop threading the variables [s] that its body updates. *)
Fixpoint for_each {A S} (xs : list A) (body : A -> S -> M S) (s : S) : M S :=
  match xs with
  | [] => ret s
  | x :: xs' => s' <- body x s ;; for_each xs' body s'
  end.

(** The collaborator calls, each recording its event. *)
Definition ensure_dir (path : string) : M unit :=
  fun w => (tt, makedirs path w, [EnsureDir path]).

Definition call_wait_for_message (topic : string) (timeout : R)
  : M (Outcome Image) :=
  fun w => let '(r, w') := wait_for_message topic timeout w in
           (r, w', [WaitForMessage topic timeout r]).

Definition call_get_state (name frame : string) : M (Outcome Pose) :=
  fun w => let '(r, w') := get_state name frame w in
           (r, w', [GetState name frame r]).

Definition call_set_state (ms : ModelState) : M (Outcome unit) :=
  fun w => let '(r, w') := set_state ms w in (r, w', [SetState ms r]).

Definition call_sleep (secs : R) : M unit :=
  fun w => (tt, time_sleep secs w, [Sleep secs]).

Definition call_imwrite (path : string) (img : CvImage) : M (Outcome unit) :=
  fun w => let '(r, w') := imwrite path img w in (r, w', [Imwrite path img r]).

(** Lines 106-125: the model state commanded for height [h] and angle
    [ang] around a sign at [sign_state]. *)
Definition car_model_state (sign_state : Pose) (h ang : R) : ModelState :=
  let sx := pos_x (position sign_state) in
  let sy := pos_y (position sign_state) in
  let sz := pos_z (position sign_state) in
  let '(cx, cy, cz) := car_position sx sy sz (radius args) h ang in
  let yaw := atan2 (sy - cy) (sx - cx) in
  let '(qx, qy, qz, qw) := quat_from_yaw yaw in
  {| model_name := car_model args;
     pose := {| position := {| pos_x := cx; pos_y := cy; pos_z := cz |};
                orientation := {| ori_x := qx; ori_y := qy;
                                  ori_z := qz; ori_w := qw |} |};
     reference_frame := "world" |}.

(** Lines 137-142: the [try] block that obtains one frame. *)
Definition grab_frame : M (Outcome CvImage) :=
  msg <- call_wait_for_message (image_topic args) 2 ;;
  ret (match msg with
       | Returned m => imgmsg_to_cv2 m "bgr8"
       | Raised => Raised
       end).

(** Lines 136-156: one iteration of the shots loop. *)
Definition take_shot (out_label_dir sign_name : string) (idx : nat) : M nat :=
  frame <- grab_frame ;;
  match frame with
  | Raised => ret idx
  | Returned cv_img =>
      let idx := S idx in
      let filepath := file_path out_label_dir sign_name idx in
      call_imwrite filepath cv_img ;;
      ret idx
  end.

(** Lines 104-156: one iteration of the angles loop. *)
Definition visit_pose (out_label_dir sign_name : string) (sign_state : Pose)
    (h ang : R) (idx : nat) : M nat :=
  let ms := car_model_state sign_state h ang in
  moved <- call_set_state ms ;;
  match moved with
  | Raised => ret idx
  | Returned _ =>
      call_sleep (sleep args) ;;
      for_each (range (shots_per_pose args))
               (fun _ => take_shot out_label_dir sign_name) idx
  end.

(** Line 49. *)
Definition angles : list R := map radians (angles_deg args).

(** Lines 101-156: the sweep around one sign. *)
Definition sweep_poses (out_label_dir sign_name : string) (sign_state : Pose)
  : M nat :=
  let idx := O in
  for_each (heights args)
    (fun h => for_each angles
       (fun ang => visit_pose out_label_dir sign_name sign_state h ang))
    idx.

(** Lines 89-156: one iteration of the loop over the signs of a group. *)
Definition capture_sign (out_label_dir sign_name : string) : M unit :=
  found <- call_get_state sign_name "world" ;;
  match found with
  | Raised => ret tt
  | Returned sign_state =>
      sweep_poses out_label_dir sign_name sign_state ;; ret tt
  end.

(** Lines 85-156: one iteration of the loop over the groups. *)
Definition capture_group (target : string * list string) : M unit :=
  let '(label, sign_list) := target in
  let out_label_dir := path_join (output_dir args) label in
  ensure_dir out_label_dir ;;
  for_each sign_list (fun sign_name _ => capture_sign out_label_dir sign_name) tt.

Definition sweep (groups : list (string * list string)) : M unit :=
  for_each groups (fun target _ => capture_group target) tt.

(** Lines 69-158. *)
Definition main : M unit :=
  ensure_dir (output_dir args) ;;
  probe <- call_wait_for_message (image_topic args) 5 ;;
  match probe with
  | Raised => ret tt
  | Returned _ => sweep targets
  end.

(** *** Observations on a trace *)

(** Every [imwrite] call: its path and whether it returned. *)
Definition writes (tr : Trace) : list (string * bool) :=
  flat_map (fun e => match e with
                     | Imwrite p _ r => [(p, returned r)]
                     | _ => []
                     end) tr.

(** The files that were saved. *)
Definition files_written (tr : Trace) : list string :=
  map fst (filter snd (writes tr)).

Definition failed_writes (tr : Trace) : nat :=
  List.length (filter (fun pw => negb (snd pw)) (writes tr)).

(** The model states passed to [set_state]. *)
Definition pose_commands (tr : Trace) : list ModelState :=
  flat_map (fun e => match e with SetState ms _ => [ms] | _ => [] end) tr.

(** The [get_state] calls with their answers. *)
Definition queries (tr : Trace) : list (string * Outcome Pose) :=
  flat_map (fun e => match e with GetState n _ r => [(n, r)] | _ => [] end) tr.

(** Did a frame request deliver an image the bridge could convert? *)
Definition frame_ok (r : Outcome Image) : bool :=
  match r with
  | Returned m => returned (imgmsg_to_cv2 m "bgr8")
  | Raised => false
  end.

Definition frame_requests (tr : Trace) : list bool :=
  flat_map (fun e => match e with
                     | WaitForMessage _ _ r => [frame_ok r]
                     | _ => []
                     end) tr.

Definition grabbed_frames (tr : Trace) : nat :=
  List.length (filter (fun b => b) (frame_requests tr)).

Definition failed_frames (tr : Trace) : nat :=
  List.length (filter negb (frame_requests tr)).

(** The skeleton of a sweep: directories entered, objects looked up and
    poses commanded, without the answers to the commands. *)
Inductive Step : Type :=
| EnterGroup (dir : string)
| LookUp (name : string)
| MoveTo (ms : ModelState).

Definition visits (tr : Trace) : list Step :=
  flat_map (fun e => match e with
                     | EnsureDir d => [EnterGroup d]
                     | GetState n _ _ => [LookUp n]
                     | _ => []
                     end) tr.

Definition steps (tr : Trace) : list Step :=
  flat_map (fun e => match e with
                     | GetState n _ _ => [LookUp n]
                     | SetState ms _ => [MoveTo ms]
                     | _ => []
                     end) tr.

(** The poses of one sign in the order of the nested loops: heights
    outside, angles inside. *)
Definition pose_grid : list (R * R) := list_prod (heights args) angles.

Definition planned_moves (found : Outcome Pose) : list ModelState :=
  match found with
  | Returned sign_state =>
      map (fun ha => car_model_state sign_state (fst ha) (snd ha)) pose_grid
  | Raised => []
  end.

(** The run up to the moment it reaches sign [name], listed after [pre]
    in group [label], which follows the groups [earlier]; and the run from
    the sign after it on. *)
Definition before_sign (earlier : list (string * list string)) (label : string)
    (pre : list string) : M unit :=
  sweep earlier ;;
  ensure_dir (path_join (output_dir args) label) ;;
  for_each pre
    (fun sign_name _ => capture_sign (path_join (output_dir args) label) sign_name)
    tt.

Definition after_sign (label : string) (post : list string)
    (later : list (string * list string)) : M unit :=
  for_each post
    (fun sign_name _ => capture_sign (path_join (output_dir args) label) sign_name)
    tt ;;
  sweep later.

(** *** Invariants of the loops *)

(** The [imwrite] calls of a piece of one sign's sweep that starts with
    index [idx] and ends with [idx']: they carry the indices after [idx]
    one by one, and there is one for every frame that was grabbed. *)
Definition numbered (out_label_dir sign_name : string) (idx idx' : nat)
    (tr : Trace) : Prop :=
  map fst (writes tr) =
    map (file_path out_label_dir sign_name)
        (seq (S idx) (List.length (writes tr))) /\
  idx' = (idx + List.length (writes tr))%nat /\
  List.length (writes tr) = grabbed_frames tr.

(** Events of the shots loop and the settle delay. *)
Definition capture_event (e : Event) : Prop :=
  match e with
  | WaitForMessage _ _ _ | Imwrite _ _ _ | Sleep _ => True
  | _ => False
  end.

(** A trace that commands exactly the poses [moves], looks nothing up
    and enters no directory. *)
Definition commands (moves : list ModelState) (tr : Trace) : Prop :=
  steps tr = map MoveTo moves /\ pose_commands tr = moves /\
  queries tr = [] /\ visits tr = [].

(** The pose commands of a trace are those planned from its look-ups. *)
Definition follows_plan (tr : Trace) : Prop :=
  steps tr =
  flat_map (fun q => LookUp (fst q) :: map MoveTo (planned_moves (snd q)))
           (queries tr).

End Script.

Arguments Event Image CvImage : clear implicits.
Arguments Trace Image CvImage : clear implicits.
Arguments M World Image CvImage A : clear implicits.

(** ** A scripted simulator

    A concrete collaborator to run the script on: every call that may
    raise consumes one entry of a script ([true]: return, [false]: raise;
    an exhausted script always returns) and advances a clock.  The sign
    drifts along the x axis as the clock advances, and a frame is
    identified by the time at which it was taken. *)

Module Scripted.

Record World := { script : list bool; clock : nat }.

Definition answer {A} (a : A) (w : World) : Outcome A * World :=
  match script w with
  | [] => (Returned a, {| script := []; clock := S (clock w) |})
  | true :: rest => (Returned a, {| script := rest; clock := S (clock w) |})
  | false :: rest => (Raised, {| script := rest; clock := S (clock w) |})
  end.

Definition sign_pose_at (t : nat) : Pose :=
  {| position := {| pos_x := INR t; pos_y := 0; pos_z := 0 |};
     orientation := {| ori_x := 0; ori_y := 0; ori_z := 0; ori_w := 1 |} |}.

#[global] Instance simulator : Simulator World nat nat := {|
  get_state := fun _ _ w => answer (sign_pose_at (clock w)) w;
  set_state := fun _ w => answer tt w;
  wait_for_message := fun _ _ w => answer (clock w) w;
  imgmsg_to_cv2 := fun m _ => Returned m;
  imwrite := fun _ _ w => answer tt w;
  makedirs := fun _ w => w;
  time_sleep := fun _ w => {| script := script w; clock := S (clock w) |}
|}.

Definition start (s : list bool) : World := {| script := s; clock := 0 |}.

(** [os.path.join("dataset", "STOP")] *)
Definition stop_dir : string := "dataset/STOP".

(** The defaults of the command line (lines 26-41). *)
Definition default_args : Args := {|
  image_topic := "/camera/image_raw";
  car_model := "automobile";
  output_dir := "dataset";
  radius := 1.2;
  heights := [0.15; 0.25];
  angles_deg := [-60; -40; -20; 0; 20; 40; 60];
  shots_per_pose := 1;
  sleep := 0.25
|}.

(** One height, one angle, [shots] shots per pose. *)
Definition single_pose_args (shots : Z) : Args := {|
  image_topic := "/camera/image_raw";
  car_model := "automobile";
  output_dir := "dataset";
  radius := 1;
  heights := [0];
  angles_deg := [0];
  shots_per_pose := shots;
  sleep := 0.25
|}.

(** One height, two angles, one shot per pose. *)
Definition two_pose_args : Args := {|
  image_topic := "/camera/image_raw";
  car_model := "automobile";
  output_dir := "dataset";
  radius := 1;
  heights := [0];
  angles_deg := [0; 90];
  shots_per_pose := 1;
  sleep := 0.25
|}.


Definition zero_radius_args : Args := {|
  image_topic := "/camera/image_raw";
  car_model := "automobile";
  output_dir := "dataset";
  radius := 0;
  heights := [0.15];
  angles_deg := [0; 90];
  shots_per_pose := 1;
  sleep := 0.25
|}.

End Scripted.

(** ** The comma separated flags

    Lines 48-49 turn the [--heights] and [--angles_deg] flags into lists
    of numbers: the flag is split at every comma, each piece is stripped
    of surrounding whitespace, blank pieces are dropped and the others go
    through [float].  Characters are code points below 256. *)

Module Flags.

(** [str.isspace] on one character: the ASCII controls 9-13 and 28-31,
    the space, NEL (133) and the no-break space (160). *)
Definition is_space (c : ascii) : bool :=
  let n := nat_of_ascii c in
  (((9 <=? n) && (n <=? 13)) || ((28 <=? n) && (n <=? 32))
   || (n =? 133) || (n =? 160))%nat%bool.

Definition is_comma (c : ascii) : bool := Ascii.eqb c ",".

(** [s.split(",")] *)
Fixpoint split_comma (s : string) : list string :=
  match s with
  | EmptyString => [EmptyString]
  | String c s' =>
      if is_comma c then EmptyString :: split_comma s'
      else match split_comma s' with
           | [] => [String c EmptyString]
           | piece :: pieces => String c piece :: pieces
           end
  end.

(** [s.lstrip()], [s.rstrip()] and [s.strip()] *)
Fixpoint lstrip (s : string) : string :=
  match s with
  | EmptyString => EmptyString
  | String c s' => if is_space c then lstrip s' else s
  end.

Fixpoint rstrip (s : string) : string :=
  match s with
  | EmptyString => EmptyString
  | String c s' =>
      match rstrip s' with
      | EmptyString => if is_space c then EmptyString else String c EmptyString
      | kept => String c kept
      end
  end.

Definition strip (s : string) : string := rstrip (lstrip s).

(** The truth value of a string in a condition. *)
Definition truthy (s : string) : bool :=
  match s with EmptyString => false | String _ _ => true end.

(** [[x.strip() for x in flag.split(",") if x.strip()]] *)
Definition tokens (flag : string) : list string :=
  map strip (filter (fun x => truthy (strip x)) (split_comma flag)).

Fixpoint all_chars (p : ascii -> bool) (s : string) : bool :=
  match s with
  | EmptyString => true
  | String c s' => p c && all_chars p s'
  end.

(** A flag that holds nothing but commas and whitespace. *)
Definition blank (flag : string) : bool :=
  all_chars (fun c => is_comma c || is_space c)%bool flag.

Section Float.

(** [float] applied to a stripped piece: the number, or [ValueError]. *)
Variable float : string -> Outcome R.

Fixpoint parse_each (pieces : list string) : Outcome (list R) :=
  match pieces with
  | [] => Returned []
  | x :: rest =>
      match float x with
      | Raised => Raised
      | Returned v =>
          match parse_each rest with
          | Raised => Raised
          | Returned vs => Returned (v :: vs)
          end
      end
  end.

(** Line 48. *)
Definition parse_heights (flag : string) : Outcome (list R) :=
  parse_each (tokens flag).

(** Line 49. *)
Definition parse_angles (flag : string) : Outcome (list R) :=
  match parse_each (tokens flag) with
  | Returned degs => Returned (map radians degs)
  | Raised => Raised
  end.

End Float.

End Flags.

(** Reading the index back from the digits of a file name. *)
Definition index_of_digits (digits : string) : option nat :=
  option_map Nat.of_uint (NilEmpty.uint_of_string digits).

(** ** Further observations on a trace *)

Section Observations.

Context {World Image CvImage : Type} {sim : Simulator World Image CvImage}.
Variable args : Args.

Let Trace := Trace Image CvImage.

(** The number of pose commands that were accepted. *)
Definition accepted_moves (tr : Trace) : nat :=
  List.length
    (filter (fun b : bool => b)
       (flat_map (fun e => match e with
                           | SetState _ r => [returned r]
                           | _ => []
                           end) tr)).

(** The settle delays, and the topic and timeout of the frame requests. *)
Definition sleeps (tr : Trace) : list R :=
  flat_map (fun e => match e with Sleep secs => [secs] | _ => [] end) tr.

Definition frame_reads (tr : Trace) : list (string * R) :=
  flat_map (fun e => match e with
                     | WaitForMessage topic timeout _ => [(topic, timeout)]
                     | _ => []
                     end) tr.

(** The number of signs that were found. *)
Definition found_signs (tr : Trace) : nat :=
  List.length (filter (fun q => returned (snd q)) (queries tr)).

(** A run in which no collaborator call raised. *)
Definition event_ok (e : Event Image CvImage) : bool :=
  match e with
  | WaitForMessage _ _ r => frame_ok r
  | GetState _ _ r => returned r
  | SetState _ r => returned r
  | Imwrite _ _ r => returned r
  | EnsureDir _ | Sleep _ => true
  end.

Definition clean (tr : Trace) : bool := forallb event_ok tr.

(** What the trace of [n] shots looks like. *)
Definition shot_facts (n : nat) (tr : Trace) : Prop :=
  sleeps tr = [] /\
  accepted_moves tr = 0%nat /\
  pose_commands tr = [] /\
  Forall (fun read => read = (image_topic args, 2)) (frame_reads tr) /\
  List.length (frame_requests tr) = n /\
  List.length (writes tr) = grabbed_frames tr /\
  (clean tr = true -> List.length (files_written tr) = n).

(** What every pose command of the script looks like. *)
Definition car_command (ms : ModelState) : Prop :=
  model_name ms = car_model args /\
  reference_frame ms = "world"%string /\
  ori_x (orientation (pose ms)) = 0 /\
  ori_y (orientation (pose ms)) = 0 /\
  (ori_z (orientation (pose ms)))² + (ori_w (orientation (pose ms)))² = 1.

(** The separator [os.path.join] puts after the output directory. *)
Definition dir_separator (dir : string) : string :=
  if (String.eqb dir EmptyString || ends_with_slash dir)%bool
  then EmptyString else "/"%string.

(** [<output_dir>/<label>/<sign>_<index>.png] *)
Definition layout (label sign_name : string) (idx : nat) : string :=
  (output_dir args ++ dir_separator (output_dir args) ++ label ++ "/"
   ++ sign_name ++ "_" ++ fmt_04d idx ++ ".png")%string.

End Observations.

(** ** Uncaught exceptions

    [os.makedirs] (lines 69 and 87) and [time.sleep] (line 133) are
    called outside any [try]: when one of them raises, for instance
    [time.sleep] on a negative delay or [os.makedirs] on an empty path,
    the run ends there.  [Simulator] says what these calls do to the
    world when they return; [Unguarded] says in which worlds they raise.
    The script is modelled once more with that in mind: [Uncaught.main]
    is the run as it really ends, and [main] is the run on the hosts on
    which these two calls always return. *)

Class Unguarded (World : Type) := {
  makedirs_raises : string -> World -> bool;
  sleep_raises : R -> World -> bool
}.

(** How a run ends: it returns, or dies of an uncaught exception. *)
Inductive Ending (A : Type) : Type :=
| Completed (a : A)
| Died.
Arguments Completed {A} a.
Arguments Died {A}.

Module Uncaught.

Section Script.

Context {World Image CvImage : Type} {sim : Simulator World Image CvImage}
        {host : Unguarded World}.
Variable args : Args.

Let Trace := Trace Image CvImage.

Definition X (A : Type) : Type := World -> Ending A * World * Trace.

Definition ret {A} (a : A) : X A := fun w => (Completed a, w, []).

(** Sequencing: nothing runs after an uncaught exception. *)
Definition bind {A B} (x : X A) (k : A -> X B) : X B :=
  fun w =>
    match x w with
    | (Completed a, w1, t1) =>
        let '(e, w2, t2) := k a w1 in (e, w2, t1 ++ t2)
    | (Died, w1, t1) => (Died, w1, t1)
    end.

Notation "x <- m ;; k" := (bind m (fun x => k))
  (at level 61, m at next level, right associativity).
Notation "m ;; k" := (bind m (fun _ => k))
  (at level 61, right associativity).

(** A computation all of whose calls are inside [try]. *)
Definition guarded {A} (m : M World Image CvImage A) : X A :=
  fun w => let '(a, w', t) := m w in (Completed a, w', t).

(** Lines 136-156: the shots of one pose; every call is inside [try]. *)
Definition take_shots (out_label_dir sign_name : string) (idx : nat) : X nat :=
  guarded (for_each (range (shots_per_pose args))
             (fun _ => take_shot args out_label_dir sign_name) idx).

Definition ending_of {A} (x : X A) (w : World) : Ending A := fst (fst (x w)).
Definition trace_of {A} (x : X A) (w : World) : Trace := snd (x w).

Fixpoint for_each {A S} (xs : list A) (body : A -> S -> X S) (s : S) : X S :=
  match xs with
  | [] => ret s
  | x :: xs' => s' <- body x s ;; for_each xs' body s'
  end.

(** Lines 14-15 and line 133. *)
Definition ensure_dir (path : string) : X unit :=
  fun w =>
    if makedirs_raises path w then (Died, w, [EnsureDir path])
    else (Completed tt, makedirs path w, [EnsureDir path]).

Definition call_sleep (secs : R) : X unit :=
  fun w =>
    if sleep_raises secs w then (Died, w, [Sleep secs])
    else (Completed tt, time_sleep secs w, [Sleep secs]).

(** Lines 104-156. *)
Definition visit_pose (out_label_dir sign_name : string) (sign_state : Pose)
    (h ang : R) (idx : nat) : X nat :=
  let ms := car_model_state args sign_state h ang in
  moved <- guarded (call_set_state ms) ;;
  match moved with
  | Raised => ret idx
  | Returned _ =>
      call_sleep (sleep args) ;;
      take_shots out_label_dir sign_name idx
  end.

(** Lines 101-156. *)
Definition sweep_poses (out_label_dir sign_name : string) (sign_state : Pose)
  : X nat :=
  let idx := O in
  for_each (heights args)
    (fun h => for_each (angles args)
       (fun ang => visit_pose out_label_dir sign_name sign_state h ang))
    idx.

(** Lines 89-156. *)
Definition capture_sign (out_label_dir sign_name : string) : X unit :=
  found <- guarded (call_get_state sign_name "world") ;;
  match found with
  | Raised => ret tt
  | Returned sign_state =>
      sweep_poses out_label_dir sign_name sign_state ;; ret tt
  end.

(** Lines 85-156. *)
Definition capture_group (target : string * list string) : X unit :=
  let '(label, sign_list) := target in
  let out_label_dir := path_join (output_dir args) label in
  ensure_dir out_label_dir ;;
  for_each sign_list (fun sign_name _ => capture_sign out_label_dir sign_name) tt.

Definition sweep (groups : list (string * list string)) : X unit :=
  for_each groups (fun target _ => capture_group target) tt.

(** Lines 69-158. *)
Definition main : X unit :=
  ensure_dir (output_dir args) ;;
  probe <- guarded (call_wait_for_message (image_topic args) 5) ;;
  match probe with
  | Raised => ret tt
  | Returned _ => sweep targets
  end.

End Script.

Arguments X World Image CvImage A : clear implicits.

End Uncaught.

(** The run that may die agrees with the run on an obliging host: when
    it completes it is that run, and when it dies its trace is the
    beginning of the trace of that run. *)
Definition agrees {World Image CvImage A : Type}
    (x : Uncaught.X World Image CvImage A) (m : M World Image CvImage A)
  : Prop :=
  forall w,
    match x w with
    | (Completed a, w', t) => m w = (a, w', t)
    | (Died, _, t) => exists rest, trace_of m w = t ++ rest
    end.

(** Hosts for the scripted simulator: one on which nothing raises, one
    on which every [time.sleep] raises, as for a negative delay, and one
    on which [os.makedirs] raises on the empty path. *)
Module ScriptedHosts.

Definition obliging : Unguarded Scripted.World :=
  {| makedirs_raises := fun _ _ => false; sleep_raises := fun _ _ => false |}.

Definition negative_sleep : Unguarded Scripted.World :=
  {| makedirs_raises := fun _ _ => false; sleep_raises := fun _ _ => true |}.

Definition no_empty_path : Unguarded Scripted.World :=
  {| makedirs_raises := fun path _ => String.eqb path EmptyString;
     sleep_raises := fun _ _ => false |}.

(** The defaults, but with an empty [--output_dir]. *)
Definition empty_output_args : Args := {|
  image_topic := "/camera/image_raw";
  car_model := "automobile";
  output_dir := EmptyString;
  radius := 1.2;
  heights := [0.15; 0.25];
  angles_deg := [-60; -40; -20; 0; 20; 40; 60];
  shots_per_pose := 1;
  sleep := 0.25
|}.

End ScriptedHosts.


(** The pace of a sweep: directories and look-ups, rejected pose
    commands on their own, and accepted pose commands each followed at
    once by the settle delay and then by the shots of the pose, with one
    frame request per shot. *)
Section Pace.

Context {World Image CvImage : Type} {sim : Simulator World Image CvImage}.
Variable args : Args.




End Pace.

(** ** Facts about [atan2] *)

Lemma sqrt_sum_pos_factor (x y : R) :
  0 < x -> sqrt (x * x + y * y) = x * sqrt (1 + (y / x)²).
Proof.
  intros Hx.
  assert (Hs : 0 < 1 + (y / x)²) by (unfold Rsqr; nra).
  assert (Hq : 0 < sqrt (1 + (y / x)²)) by now apply sqrt_lt_R0.
  apply sqrt_lem_1; [nra | nra |].
  replace (x * sqrt (1 + (y / x)²) * (x * sqrt (1 + (y / x)²)))
    with (x * x * (sqrt (1 + (y / x)²) * sqrt (1 + (y / x)²))) by ring.
  rewrite sqrt_sqrt by lra.
  unfold Rsqr. field. lra.
Qed.

Lemma atan2_polar (x y : R) :
  x <> 0 \/ y <> 0 ->
  x = sqrt (x * x + y * y) * cos (atan2 y x) /\
  y = sqrt (x * x + y * y) * sin (atan2 y x).
Proof.
  intros Hxy. unfold atan2.
  destruct (Rlt_dec 0 x) as [Hx | Hx].
  - rewrite cos_atan, sin_atan, sqrt_sum_pos_factor by assumption.
    assert (Hs : 0 < sqrt (1 + (y / x)²))
      by (apply sqrt_lt_R0; unfold Rsqr; nra).
    split; field; lra.
  - destruct (Rlt_dec x 0) as [Hx' | Hx'].
    + assert (Hr : sqrt (x * x + y * y) = - x * sqrt (1 + (y / x)²)).
      { replace (x * x + y * y) with (- x * - x + - y * - y) by ring.
        rewrite sqrt_sum_pos_factor by lra.
        do 3 f_equal. unfold Rsqr. field. lra. }
      assert (Hs : 0 < sqrt (1 + (y / x)²))
        by (apply sqrt_lt_R0; unfold Rsqr; nra).
      destruct (Rle_dec 0 y) as [Hy | Hy].
      * rewrite neg_cos, neg_sin, cos_atan, sin_atan, Hr.
        split; field; lra.
      * unfold Rminus.
        rewrite cos_plus, sin_plus, cos_neg, sin_neg, cos_PI, sin_PI.
        rewrite cos_atan, sin_atan, Hr.
        split; field; lra.
    + assert (x = 0) by lra. subst x.
      destruct (Rlt_dec 0 y) as [Hy | Hy].
      * rewrite cos_PI2, sin_PI2.
        replace (0 * 0 + y * y) with (y * y) by ring.
        rewrite sqrt_square by lra. lra.
      * destruct (Rlt_dec y 0) as [Hy' | Hy'].
        -- rewrite cos_neg, sin_neg, cos_PI2, sin_PI2.
           replace (0 * 0 + y * y) with (- y * - y) by ring.
           rewrite sqrt_square by lra. lra.
        -- exfalso. destruct Hxy as [H | H]; apply H; lra.
Qed.

Lemma atan2_bound (y x : R) : - PI < atan2 y x <= PI.
Proof.
  pose proof PI_RGT_0 as Hpi.
  unfold atan2.
  destruct (Rlt_dec 0 x) as [Hx | Hx].
  - pose proof (atan_bound (y / x)). lra.
  - destruct (Rlt_dec x 0) as [Hx' | Hx'].
    + pose proof (atan_bound (y / x)) as Hb.
      destruct (Rle_dec 0 y) as [Hy | Hy].
      * assert (Ht : y / x <= 0).
        { unfold Rdiv. assert (/ x < 0) by (apply Rinv_lt_0_compat; lra). nra. }
        assert (atan (y / x) <= 0).
        { destruct Ht as [Ht | Ht].
          - left. rewrite <- atan_0. now apply atan_increasing.
          - rewrite Ht, atan_0. lra. }
        lra.
      * assert (Ht : 0 < y / x).
        { unfold Rdiv. assert (/ x < 0) by (apply Rinv_lt_0_compat; lra). nra. }
        assert (0 < atan (y / x)).
        { rewrite <- atan_0. now apply atan_increasing. }
        lra.
    + destruct (Rlt_dec 0 y); [lra |].
      destruct (Rlt_dec y 0); lra.
Qed.

(** Two angles with the same cosine and sine differ by a multiple of 2 PI. *)
Lemma same_direction (a b : R) :
  cos a = cos b -> sin a = sin b -> exists k : Z, a = b + 2 * IZR k * PI.
Proof.
  intros Hc Hs.
  assert (H1 : cos (a - b) = 1).
  { rewrite cos_minus, Hc, Hs.
    pose proof (sin2_cos2 b) as H. unfold Rsqr in H. lra. }
  assert (H2 : sin ((a - b) / 2) = 0).
  { pose proof (cos_2a_sin ((a - b) / 2)) as H.
    replace (2 * ((a - b) / 2)) with (a - b) in H by field.
    rewrite H1 in H. nra. }
  destruct (sin_eq_0_0 _ H2) as [k Hk].
  exists k. lra.
Qed.

(** Within (-PI, PI] an angle is determined by its cosine and sine. *)
Lemma same_direction_principal (a b : R) :
  - PI < a <= PI -> - PI < b <= PI ->
  cos a = cos b -> sin a = sin b -> a = b.
Proof.
  intros Ha Hb Hc Hs.
  destruct (same_direction a b Hc Hs) as [k Hk].
  pose proof PI_RGT_0 as Hpi.
  assert (Hk0 : (k = 0)%Z).
  { assert (H1 : (-1 < k)%Z).
    { apply lt_IZR. simpl. nra. }
    assert (H2 : (k < 1)%Z).
    { apply lt_IZR. simpl. nra. }
    lia. }
  subst k. simpl in Hk. lra.
Qed.

Lemma atan2_sin_cos (t : R) :
  - PI < t <= PI -> atan2 (sin t) (cos t) = t.
Proof.
  intros Ht.
  assert (Hn : cos t <> 0 \/ sin t <> 0).
  { destruct (Req_dec (cos t) 0) as [Hc | Hc]; [right | now left].
    intros Hs. now apply (cos_sin_0 t). }
  destruct (atan2_polar _ _ Hn) as [Hx Hy].
  assert (Hr : sqrt (cos t * cos t + sin t * sin t) = 1).
  { pose proof (sin2_cos2 t) as H. unfold Rsqr in H.
    replace (cos t * cos t + sin t * sin t) with 1 by lra.
    apply sqrt_1. }
  rewrite Hr in Hx, Hy.
  apply same_direction_principal; auto using atan2_bound; lra.
Qed.

(** ** Small checks of the definitions *)

Example fmt_04d_pads : fmt_04d 7 = "0007"%string /\ fmt_04d 123 = "0123"%string.
Proof. split; reflexivity. Qed.

Example file_path_example :
  file_path (path_join "dataset" "STOP") "STOP_A" 12 =
  "dataset/STOP/STOP_A_0012.png"%string.
Proof. reflexivity. Qed.

Example path_join_cases :
  path_join "out/" "STOP" = "out/STOP"%string /\
  path_join EmptyString "STOP" = "STOP"%string /\
  path_join "out" "/abs" = "/abs"%string.
Proof. repeat split; reflexivity. Qed.

Example range_of_negative : range (-2) = [] /\ range 3 = [0; 1; 2]%nat.
Proof. split; reflexivity. Qed.

(** Sign at the origin, radius 1, height 0, angle 0: the car stands at
    (1, 0, 0) and looks back along the x axis. *)
Example origin_scenario :
  car_position 0 0 0 1 0 (radians 0) = (1, 0, 0) /\
  car_yaw 0 0 0 1 0 (radians 0) = PI.
Proof.
  unfold car_yaw, car_position, radians.
  replace (0 * (PI / 180)) with 0 by ring.
  rewrite cos_0, sin_0.
  replace (0 + 1 * 1) with 1 by ring.
  replace (0 + 1 * 0) with 0 by ring.
  replace (0 + 0) with 0 by ring.
  split; [reflexivity |].
  replace (0 - 0) with 0 by ring. replace (0 - 1) with (-1) by ring.
  unfold atan2.
  destruct (Rlt_dec 0 (-1)) as [H | _]; [lra |].
  destruct (Rlt_dec (-1) 0) as [_ | H]; [| lra].
  destruct (Rle_dec 0 0) as [_ | H]; [| lra].
  replace (0 / -1) with 0 by (field; lra).
  rewrite atan_0. ring.
Qed.

(** ** The pose of the car *)

Section PoseGeometry.

Variable args : Args.
Variable sign_state : Pose.

Let sx := pos_x (position sign_state).
Let sy := pos_y (position sign_state).
Let sz := pos_z (position sign_state).

Lemma car_model_state_position (h ang : R) :
  position (pose (car_model_state args sign_state h ang)) =
  {| pos_x := sx + radius args * cos ang;
     pos_y := sy + radius args * sin ang;
     pos_z := sz + h |}.
Proof. reflexivity. Qed.

Lemma car_model_state_orientation (h ang : R) :
  let yaw := car_yaw sx sy sz (radius args) h ang in
  orientation (pose (car_model_state args sign_state h ang)) =
  {| ori_x := 0; ori_y := 0;
     ori_z := sin (yaw * 0.5); ori_w := cos (yaw * 0.5) |}.
Proof. reflexivity. Qed.

(** C3: the commanded car position is [sx + radius*cos(angle)],
    [sy + radius*sin(angle)], [sz + height]; for a positive radius it lies
    at Euclidean distance [radius] from the sign in the horizontal plane
    and [height] above the sign. *)
Theorem car_position_on_circle (h ang : R) :
  0 < radius args ->
  let c := position (pose (car_model_state args sign_state h ang)) in
  pos_x c = sx + radius args * cos ang /\
  pos_y c = sy + radius args * sin ang /\
  pos_z c = sz + h /\
  sqrt ((pos_x c - sx)² + (pos_y c - sy)²) = radius args /\
  pos_z c - sz = h.
Proof.
  intros Hr c. subst c. rewrite car_model_state_position. simpl.
  repeat split; try ring.
  apply sqrt_lem_1.
  - unfold Rsqr. nra.
  - lra.
  - pose proof (sin2_cos2 ang) as H. unfold Rsqr in *. nra.
Qed.

(** C4: for a positive radius, let yaw be [atan2(sy - cy, sx - cx)] for
    the commanded car position (cx, cy).  The commanded orientation is the
    yaw-only quaternion of that yaw; yaw is the direction from the car to
    the sign: the vector from (cx, cy) to (sx, sy) is [radius] times
    (cos yaw, sin yaw); and yaw is [angle + PI] modulo 2 PI. *)
Theorem car_yaw_faces_sign (h ang : R) :
  0 < radius args ->
  let ms := car_model_state args sign_state h ang in
  let c := position (pose ms) in
  let yaw := atan2 (sy - pos_y c) (sx - pos_x c) in
  orientation (pose ms) =
    {| ori_x := 0; ori_y := 0;
       ori_z := sin (yaw * 0.5); ori_w := cos (yaw * 0.5) |} /\
  sx - pos_x c = radius args * cos yaw /\
  sy - pos_y c = radius args * sin yaw /\
  exists k : Z, yaw = ang + PI + 2 * IZR k * PI.
Proof.
  intros Hr ms c yaw.
  split; [reflexivity |].
  set (dx := sx - pos_x c) in *. set (dy := sy - pos_y c) in *.
  assert (Hdx : dx = - (radius args * cos ang)) by (unfold dx, c; simpl; fold sx; ring).
  assert (Hdy : dy = - (radius args * sin ang)) by (unfold dy, c; simpl; fold sy; ring).
  assert (Hd : sqrt (dx * dx + dy * dy) = radius args).
  { apply sqrt_lem_1; [nra | lra |].
    pose proof (sin2_cos2 ang) as H. unfold Rsqr in H. rewrite Hdx, Hdy. nra. }
  assert (Hn : dx <> 0 \/ dy <> 0).
  { destruct (Req_dec dx 0) as [Hx | Hx]; [right | now left].
    intros Hy. apply (cos_sin_0 ang). split; nra. }
  destruct (atan2_polar dx dy Hn) as [Hc Hs].
  fold yaw in Hc, Hs. rewrite Hd in Hc, Hs.
  repeat split; try assumption.
  apply same_direction; rewrite ?neg_cos, ?neg_sin; nra.
Qed.

End PoseGeometry.

(** ** The yaw-only quaternion *)

Lemma quat_from_yaw_unit (yaw : R) :
  let '(x, y, z, w) := quat_from_yaw yaw in
  x = 0 /\ y = 0 /\ z² + w² = 1.
Proof.
  simpl. repeat split; try reflexivity. apply sin2_cos2.
Qed.

(** C5, as amended: the encoding has x = y = 0 and z^2 + w^2 = 1;
    [2*atan2(z, w)] gives yaw back up to a multiple of 4 PI, and gives yaw
    itself when -2 PI < yaw <= 2 PI, which covers every yaw that [atan2]
    returns. *)
Theorem quat_from_yaw_round_trip (yaw : R) :
  let '(x, y, z, w) := quat_from_yaw yaw in
  x = 0 /\ y = 0 /\ z² + w² = 1 /\
  (exists k : Z, yaw_from_quat (quat_from_yaw yaw) = yaw + 4 * IZR k * PI) /\
  (- (2 * PI) < yaw <= 2 * PI -> yaw_from_quat (quat_from_yaw yaw) = yaw).
Proof.
  pose proof (quat_from_yaw_unit yaw) as Hu. simpl in *.
  destruct Hu as (Hx & Hy & Hn).
  repeat split; try assumption.
  - set (t := yaw * 0.5).
    assert (Hz : cos t <> 0 \/ sin t <> 0).
    { destruct (Req_dec (cos t) 0) as [Hc | Hc]; [right | now left].
      intros Hs. now apply (cos_sin_0 t). }
    destruct (atan2_polar _ _ Hz) as [Hc Hs].
    assert (Hr : sqrt (cos t * cos t + sin t * sin t) = 1).
    { pose proof (sin2_cos2 t) as H. unfold Rsqr in H.
      replace (cos t * cos t + sin t * sin t) with 1 by lra.
      apply sqrt_1. }
    rewrite Hr in Hc, Hs.
    destruct (same_direction (atan2 (sin t) (cos t)) t) as [k Hk]; try lra.
    exists k. rewrite Hk. unfold t. lra.
  - intros Hrange. rewrite atan2_sin_cos; lra.
Qed.

(** The yaw that the sweep encodes is always within that range. *)
Lemma car_yaw_round_trip (sx sy sz r h ang : R) :
  yaw_from_quat (quat_from_yaw (car_yaw sx sy sz r h ang)) =
  car_yaw sx sy sz r h ang.
Proof.
  pose proof (atan2_bound (sy - (sy + r * sin ang)) (sx - (sx + r * cos ang))) as Hb.
  pose proof PI_RGT_0.
  unfold yaw_from_quat, quat_from_yaw, car_yaw. simpl.
  rewrite atan2_sin_cos; lra.
Qed.

(** C5, as stated, fails at yaw = 4 PI: the encoding is (0, 0, 0, 1) and
    the round trip gives 0. *)
Lemma quat_round_trip_fails_at_4PI :
  quat_from_yaw (4 * PI) = (0, 0, sin (4 * PI * 0.5), cos (4 * PI * 0.5)) /\
  yaw_from_quat (quat_from_yaw (4 * PI)) = 0 /\
  yaw_from_quat (quat_from_yaw (4 * PI)) <> 4 * PI.
Proof.
  assert (H0 : yaw_from_quat (quat_from_yaw (4 * PI)) = 0).
  { unfold yaw_from_quat, quat_from_yaw.
    replace (4 * PI * 0.5) with (2 * PI) by lra.
    rewrite sin_2PI, cos_2PI. unfold atan2.
    destruct (Rlt_dec 0 1) as [_ | H]; [| lra].
    replace (0 / 1) with 0 by field. rewrite atan_0. ring. }
  repeat split; [assumption |].
  rewrite H0. pose proof PI_RGT_0. lra.
Qed.

(** ** Running computations *)

Section Runs.

Context {World Image CvImage : Type} {sim : Simulator World Image CvImage}.
Variable args : Args.

Let Trace := Trace Image CvImage.
Let M := M World Image CvImage.

Lemma run_eta {A} (m : M A) (w : World) :
  m w = (value_of m w, world_after m w, trace_of m w).
Proof.
  unfold value_of, world_after, trace_of.
  now destruct (m w) as [[a w1] t].
Qed.

Lemma value_of_bind {A B} (m : M A) (k : A -> M B) w :
  value_of (bind m k) w = value_of (k (value_of m w)) (world_after m w).
Proof.
  unfold value_of, world_after, bind.
  destruct (m w) as [[a w1] t1]. simpl.
  now destruct (k a w1) as [[b w2] t2].
Qed.

Lemma world_after_bind {A B} (m : M A) (k : A -> M B) w :
  world_after (bind m k) w = world_after (k (value_of m w)) (world_after m w).
Proof.
  unfold value_of, world_after, bind.
  destruct (m w) as [[a w1] t1]. simpl.
  now destruct (k a w1) as [[b w2] t2].
Qed.

Lemma trace_of_bind {A B} (m : M A) (k : A -> M B) w :
  trace_of (bind m k) w =
  trace_of m w ++ trace_of (k (value_of m w)) (world_after m w).
Proof.
  unfold value_of, world_after, trace_of, bind.
  destruct (m w) as [[a w1] t1]. simpl.
  now destruct (k a w1) as [[b w2] t2].
Qed.

Lemma trace_of_ret {A} (a : A) (w : World) : trace_of (ret a : M A) w = [].
Proof. reflexivity. Qed.

Lemma value_of_ret {A} (a : A) (w : World) : value_of (ret a : M A) w = a.
Proof. reflexivity. Qed.

Lemma world_after_ret {A} (a : A) (w : World) : world_after (ret a : M A) w = w.
Proof. reflexivity. Qed.

(** A loop over [xs ++ ys] is the loop over [xs] followed by the loop over
    [ys], started from what the first one left. *)
Lemma for_each_app {A S} (xs ys : list A) (body : A -> S -> M S) s w :
  for_each (xs ++ ys) body s w =
  bind (for_each xs body s) (for_each ys body) w.
Proof.
  revert s w. induction xs as [| x xs IH]; intros s w; simpl.
  - unfold bind, ret. now destruct (for_each ys body s w) as [[s' w'] t'].
  - unfold bind.
    destruct (body x s w) as [[s1 w1] t1].
    rewrite IH. unfold bind.
    destruct (for_each xs body s1 w1) as [[s2 w2] t2].
    destruct (for_each ys body s2 w2) as [[s3 w3] t3].
    now rewrite app_assoc.
Qed.

(** Two nested loops visit the pairs of [list_prod]: the outer variable
    changes slowest. *)
Lemma for_each_nested {A B S} (xs : list A) (ys : list B)
    (body : A -> B -> S -> M S) s w :
  for_each xs (fun x => for_each ys (body x)) s w =
  for_each (list_prod xs ys) (fun xy => body (fst xy) (snd xy)) s w.
Proof.
  revert s w. induction xs as [| x xs IH]; intros s w; simpl.
  - reflexivity.
  - rewrite for_each_app. unfold bind.
    assert (Hrow : forall s w,
      for_each (map (fun y => (x, y)) ys)
               (fun xy => body (fst xy) (snd xy)) s w =
      for_each ys (body x) s w).
    { clear. induction ys as [| y ys IHy]; intros s w; simpl.
      - reflexivity.
      - unfold bind. destruct (body x y s w) as [[s1 w1] t1].
        now rewrite IHy. }
    rewrite Hrow.
    destruct (for_each ys (body x) s w) as [[s1 w1] t1].
    now rewrite IH.
Qed.

(** *** Observations distribute over concatenation *)

Lemma writes_app (t1 t2 : Trace) : writes (t1 ++ t2) = writes t1 ++ writes t2.
Proof. apply flat_map_app. Qed.

Lemma files_written_app (t1 t2 : Trace) :
  files_written (t1 ++ t2) = files_written t1 ++ files_written t2.
Proof.
  unfold files_written. now rewrite writes_app, filter_app, map_app.
Qed.

Lemma pose_commands_app (t1 t2 : Trace) :
  pose_commands (t1 ++ t2) = pose_commands t1 ++ pose_commands t2.
Proof. apply flat_map_app. Qed.

Lemma queries_app (t1 t2 : Trace) :
  queries (t1 ++ t2) = queries t1 ++ queries t2.
Proof. apply flat_map_app. Qed.

Lemma steps_app (t1 t2 : Trace) : steps (t1 ++ t2) = steps t1 ++ steps t2.
Proof. apply flat_map_app. Qed.

Lemma visits_app (t1 t2 : Trace) : visits (t1 ++ t2) = visits t1 ++ visits t2.
Proof. apply flat_map_app. Qed.

Lemma frame_requests_app (t1 t2 : Trace) :
  frame_requests (t1 ++ t2) = frame_requests t1 ++ frame_requests t2.
Proof. apply flat_map_app. Qed.

Lemma grabbed_frames_app (t1 t2 : Trace) :
  grabbed_frames (t1 ++ t2) = (grabbed_frames t1 + grabbed_frames t2)%nat.
Proof.
  unfold grabbed_frames.
  now rewrite frame_requests_app, filter_app, length_app.
Qed.

Lemma failed_frames_app (t1 t2 : Trace) :
  failed_frames (t1 ++ t2) = (failed_frames t1 + failed_frames t2)%nat.
Proof.
  unfold failed_frames.
  now rewrite frame_requests_app, filter_app, length_app.
Qed.

Lemma failed_writes_app (t1 t2 : Trace) :
  failed_writes (t1 ++ t2) = (failed_writes t1 + failed_writes t2)%nat.
Proof.
  unfold failed_writes. now rewrite writes_app, filter_app, length_app.
Qed.

Lemma frames_partition (tr : Trace) :
  (grabbed_frames tr + failed_frames tr)%nat = List.length (frame_requests tr).
Proof.
  unfold grabbed_frames, failed_frames.
  induction (frame_requests tr) as [| [|] l IH]; simpl; lia.
Qed.

Lemma files_written_count (tr : Trace) :
  (List.length (files_written tr) + failed_writes tr)%nat =
  List.length (writes tr).
Proof.
  unfold files_written, failed_writes. rewrite length_map.
  induction (writes tr) as [| [p [|]] l IH]; simpl; lia.
Qed.

(** *** The shots loop *)

Lemma numbered_nil dir name idx : numbered dir name idx idx ([] : Trace).
Proof. unfold numbered. simpl. repeat split. lia. Qed.

Lemma numbered_app dir name idx idx1 idx2 (t1 t2 : Trace) :
  numbered dir name idx idx1 t1 -> numbered dir name idx1 idx2 t2 ->
  numbered dir name idx idx2 (t1 ++ t2).
Proof.
  intros (Hp1 & Hi1 & Hg1) (Hp2 & Hi2 & Hg2). unfold numbered.
  rewrite writes_app, grabbed_frames_app, length_app, map_app, seq_app, map_app.
  repeat split; try lia.
  rewrite Hp1, Hp2. do 3 f_equal. lia.
Qed.

Lemma capture_event_quiet (tr : Trace) :
  Forall capture_event tr -> commands [] tr.
Proof.
  unfold commands.
  induction 1 as [| e tr He _ IH]; [now repeat split |].
  destruct IH as (H1 & H2 & H3 & H4).
  destruct e; simpl in He; try contradiction; now repeat split.
Qed.

Lemma take_shot_trace dir name idx w :
  let tr := trace_of (take_shot args dir name idx) w in
  numbered dir name idx (value_of (take_shot args dir name idx) w) tr /\
  List.length (frame_requests tr) = 1%nat /\
  Forall capture_event tr.
Proof.
  unfold take_shot, grab_frame, bind, ret, call_wait_for_message, call_imwrite,
    value_of, trace_of, numbered, grabbed_frames.
  destruct (wait_for_message (image_topic args) 2 w) as [[m |] w1]; simpl.
  - destruct (imgmsg_to_cv2 m "bgr8") as [cv |] eqn:Hcv; simpl.
    + destruct (imwrite (file_path dir name (S idx)) cv w1) as [r w2]; simpl.
      rewrite Hcv. simpl. repeat split; auto; try lia.
      repeat constructor.
    + rewrite Hcv. simpl. repeat split; auto; try lia.
      repeat constructor.
  - repeat split; auto; try lia. repeat constructor.
Qed.

Lemma shots_trace dir name (xs : list nat) idx w :
  let loop := for_each xs (fun _ => take_shot args dir name) idx in
  numbered dir name idx (value_of loop w) (trace_of loop w) /\
  List.length (frame_requests (trace_of loop w)) = List.length xs /\
  Forall capture_event (trace_of loop w).
Proof.
  revert idx w. induction xs as [| x xs IH]; intros idx w loop; subst loop; simpl.
  - repeat split; try apply numbered_nil; auto.
  - rewrite value_of_bind, trace_of_bind.
    destruct (take_shot_trace dir name idx w) as (Hn & Hf & Hc).
    destruct (IH (value_of (take_shot args dir name idx) w)
                 (world_after (take_shot args dir name idx) w))
      as (Hn' & Hf' & Hc').
    split; [| split].
    + eapply numbered_app; eassumption.
    + rewrite frame_requests_app, length_app. simpl in *. lia.
    + apply Forall_app. now split.
Qed.

(** *** One pose *)

(** A pose whose command is rejected leaves a single event and the index
    as it was. *)
Lemma visit_pose_rejected dir name sign_state h ang idx w w' :
  set_state (car_model_state args sign_state h ang) w = (Raised, w') ->
  visit_pose args dir name sign_state h ang idx w =
  (idx, w', [SetState (car_model_state args sign_state h ang) Raised]).
Proof.
  intros H. unfold visit_pose, bind, call_set_state. now rewrite H.
Qed.

Lemma visit_pose_trace dir name sign_state h ang idx w :
  let ms := car_model_state args sign_state h ang in
  let run := visit_pose args dir name sign_state h ang idx in
  exists r rest,
    trace_of run w = SetState ms r :: rest /\
    Forall capture_event rest /\
    numbered dir name idx (value_of run w) (trace_of run w) /\
    List.length (frame_requests (trace_of run w)) =
      (if returned r then List.length (range (shots_per_pose args)) else 0%nat).
Proof.
  intros ms run. subst run. unfold visit_pose. fold ms.
  pose proof (shots_trace dir name (range (shots_per_pose args)) idx) as Hshots.
  unfold bind, call_set_state, call_sleep, value_of, trace_of in *.
  destruct (set_state ms w) as [[u |] w1]; simpl.
  - specialize (Hshots (time_sleep (sleep args) w1)). simpl in Hshots.
    destruct (for_each (range (shots_per_pose args))
                (fun _ => take_shot args dir name) idx
                (time_sleep (sleep args) w1)) as [[i w2] t].
    simpl in *. destruct Hshots as (Hn & Hf & Hc).
    exists (Returned u), (Sleep (sleep args) :: t).
    split; [reflexivity |].
    split; [| split].
    + constructor; [exact I | assumption].
    + unfold numbered, grabbed_frames in *. simpl. exact Hn.
    + simpl. exact Hf.
  - exists Raised, []. split; [reflexivity |].
    split; [constructor | split; [apply numbered_nil | reflexivity]].
Qed.

Lemma visit_pose_numbered dir name sign_state h ang idx w :
  numbered dir name idx
    (value_of (visit_pose args dir name sign_state h ang idx) w)
    (trace_of (visit_pose args dir name sign_state h ang idx) w).
Proof.
  destruct (visit_pose_trace dir name sign_state h ang idx w)
    as (r & rest & _ & _ & H & _). exact H.
Qed.

Lemma visit_pose_commands dir name sign_state h ang idx w :
  commands [car_model_state args sign_state h ang]
    (trace_of (visit_pose args dir name sign_state h ang idx) w).
Proof.
  destruct (visit_pose_trace dir name sign_state h ang idx w)
    as (r & rest & Ht & Hc & _ & _).
  rewrite Ht.
  destruct (capture_event_quiet rest Hc) as (H1 & H2 & H3 & H4).
  unfold commands. simpl. rewrite H1, H2, H3, H4. now repeat split.
Qed.

(** *** The sweep around one sign *)

Lemma commands_app l1 l2 (t1 t2 : Trace) :
  commands l1 t1 -> commands l2 t2 -> commands (l1 ++ l2) (t1 ++ t2).
Proof.
  intros (A1 & A2 & A3 & A4) (B1 & B2 & B3 & B4). unfold commands.
  rewrite steps_app, pose_commands_app, queries_app, visits_app, map_app.
  rewrite A1, A2, A3, A4, B1, B2, B3, B4. now repeat split.
Qed.

Lemma sweep_poses_flat dir name sign_state w :
  sweep_poses args dir name sign_state w =
  for_each (pose_grid args)
    (fun ha => visit_pose args dir name sign_state (fst ha) (snd ha)) O w.
Proof. unfold sweep_poses, pose_grid. apply for_each_nested. Qed.

Lemma poses_trace dir name sign_state (grid : list (R * R)) idx w :
  let loop :=
    for_each grid
      (fun ha => visit_pose args dir name sign_state (fst ha) (snd ha)) idx in
  numbered dir name idx (value_of loop w) (trace_of loop w) /\
  commands (map (fun ha => car_model_state args sign_state (fst ha) (snd ha)) grid)
           (trace_of loop w).
Proof.
  revert idx w.
  induction grid as [| [h ang] grid IH]; intros idx w loop; subst loop; simpl.
  - split; [apply numbered_nil | now repeat split].
  - rewrite value_of_bind, trace_of_bind.
    destruct (IH (value_of (visit_pose args dir name sign_state h ang idx) w)
                 (world_after (visit_pose args dir name sign_state h ang idx) w))
      as (Hn & Hc).
    split.
    + eapply numbered_app; [apply visit_pose_numbered | exact Hn].
    + apply (commands_app [_]); [apply visit_pose_commands | exact Hc].
Qed.

Lemma sweep_poses_trace dir name sign_state w :
  let run := sweep_poses args dir name sign_state in
  numbered dir name 0 (value_of run w) (trace_of run w) /\
  commands (planned_moves args (Returned sign_state)) (trace_of run w).
Proof.
  intros run. subst run. unfold value_of, trace_of.
  rewrite sweep_poses_flat.
  apply (poses_trace dir name sign_state (pose_grid args) 0 w).
Qed.

(** A sign that is not found leaves a single event. *)
Lemma capture_sign_missing dir name w w' :
  get_state name "world" w = (Raised, w') ->
  capture_sign args dir name w = (tt, w', [GetState name "world" Raised]).
Proof.
  intros H. unfold capture_sign, bind, call_get_state. now rewrite H.
Qed.

Lemma capture_sign_found dir name w sign_state w' :
  get_state name "world" w = (Returned sign_state, w') ->
  capture_sign args dir name w =
  (tt, world_after (sweep_poses args dir name sign_state) w',
   GetState name "world" (Returned sign_state)
     :: trace_of (sweep_poses args dir name sign_state) w').
Proof.
  intros H. unfold capture_sign, bind, call_get_state, ret, world_after, trace_of.
  rewrite H.
  destruct (sweep_poses args dir name sign_state w') as [[i w2] t]. simpl.
  now rewrite app_nil_r.
Qed.

Lemma capture_sign_trace dir name w :
  exists rest,
    trace_of (capture_sign args dir name) w =
      GetState name "world" (fst (get_state name "world" w)) :: rest /\
    commands (planned_moves args (fst (get_state name "world" w))) rest /\
    numbered dir name 0 (List.length (writes rest)) rest.
Proof.
  destruct (get_state name "world" w) as [[sign_state |] w'] eqn:Hq.
  - unfold trace_of. rewrite (capture_sign_found _ _ _ _ _ Hq). simpl.
    eexists. split; [reflexivity |].
    destruct (sweep_poses_trace dir name sign_state w') as (Hn & Hc).
    split; [exact Hc |].
    destruct Hn as (H1 & H2 & H3). repeat split; auto.
  - unfold trace_of. rewrite (capture_sign_missing _ _ _ _ Hq). simpl.
    exists []. split; [reflexivity |].
    split; [now repeat split | apply numbered_nil].
Qed.

(** *** Groups and the whole sweep *)

Lemma bind_assoc {A B C} (m : M A) (k : A -> M B) (k' : B -> M C) w :
  bind (bind m k) k' w = bind m (fun a => bind (k a) k') w.
Proof.
  unfold bind. destruct (m w) as [[a w1] t1].
  destruct (k a w1) as [[b w2] t2].
  destruct (k' b w2) as [[c w3] t3].
  now rewrite app_assoc.
Qed.

Lemma bind_ext {A B} (m : M A) (k k' : A -> M B) w :
  (forall a w', k a w' = k' a w') -> bind m k w = bind m k' w.
Proof.
  intros H. unfold bind. destruct (m w) as [[a w1] t1]. now rewrite H.
Qed.

Lemma bind_run_eq {A B} (m m' : M A) (k : A -> M B) w :
  m w = m' w -> bind m k w = bind m' k w.
Proof. intros H. unfold bind. now rewrite H. Qed.

(** The sweep seen from one sign: what comes before it, the sign, and
    what comes after it. *)
Lemma sweep_focus earlier label pre name post later w :
  sweep args (earlier ++ (label, pre ++ name :: post) :: later) w =
  bind (before_sign args earlier label pre)
    (fun _ => bind (capture_sign args (path_join (output_dir args) label) name)
       (fun _ => after_sign args label post later)) w.
Proof.
  unfold sweep, before_sign, after_sign.
  rewrite for_each_app. rewrite bind_assoc.
  apply bind_ext. intros [] w1. simpl for_each.
  unfold capture_group at 1. rewrite !bind_assoc.
  apply bind_ext. intros [] w2.
  rewrite (bind_run_eq _ _ _ _ (for_each_app _ _ _ _ _)).
  rewrite bind_assoc. apply bind_ext. intros [] w3. simpl for_each.
  rewrite bind_assoc. apply bind_ext. intros [] w4.
  apply bind_ext. now intros [] w5.
Qed.

End Runs.

(** ** Properties of the run *)

Section Properties.

Context {World Image CvImage : Type} {sim : Simulator World Image CvImage}.
Variable args : Args.

Let Trace := Trace Image CvImage.
Let M := M World Image CvImage.

Lemma run_parts {A} (m : M A) (w : World) a w' t :
  m w = (a, w', t) ->
  value_of m w = a /\ world_after m w = w' /\ trace_of m w = t.
Proof. unfold value_of, world_after, trace_of. now intros ->. Qed.

Lemma world_after_run_eq {A} (m m' : M A) (w : World) :
  m w = m' w -> world_after m w = world_after m' w.
Proof. unfold world_after. now intros ->. Qed.

Lemma trace_of_run_eq {A} (m m' : M A) (w : World) :
  m w = m' w -> trace_of m w = trace_of m' w.
Proof. unfold trace_of. now intros ->. Qed.

(** C2: when the pre-flight frame read raises, the run ends at once: it
    has created the output directory and probed the topic, nothing else;
    no image file is written and no pose command is issued. *)
Theorem preflight_failure_aborts (w w' : World) :
  wait_for_message (image_topic args) 5 (makedirs (output_dir args) w)
    = (Raised, w') ->
  main args w =
    (tt, w', [EnsureDir (output_dir args);
              WaitForMessage (image_topic args) 5 Raised]) /\
  writes (trace_of (main args) w) = [] /\
  files_written (trace_of (main args) w) = [] /\
  pose_commands (trace_of (main args) w) = [].
Proof.
  intros H.
  assert (Hrun : main args w =
    (tt, w', [EnsureDir (output_dir args);
              WaitForMessage (image_topic args) 5 Raised])).
  { unfold main, bind, ensure_dir, call_wait_for_message. now rewrite H. }
  unfold trace_of. rewrite Hrun. now repeat split.
Qed.

(** The saved files among numbered write attempts. *)
Lemma saved_among_numbered (f : nat -> string) (l : list (string * bool)) start :
  map fst l = map f (seq start (List.length l)) ->
  map fst (filter snd l) =
  map f (filter (fun i => snd (nth (i - start) l (EmptyString, false)))
                (seq start (List.length l))).
Proof.
  revert start. induction l as [| [p ok] l IH]; intros start H; simpl in *.
  - reflexivity.
  - injection H as Hp Hl.
    rewrite Nat.sub_diag. simpl.
    assert (Hext : filter (fun i => snd (nth (i - start) ((p, ok) :: l)
                                              (EmptyString, false)))
                          (seq (S start) (List.length l)) =
                   filter (fun i => snd (nth (i - S start) l (EmptyString, false)))
                          (seq (S start) (List.length l))).
    { apply filter_ext_in. intros i Hi. apply in_seq in Hi.
      replace (i - start)%nat with (S (i - S start)) by lia. reflexivity. }
    simpl in Hext. rewrite Hext.
    destruct ok; simpl; rewrite <- (IH (S start) Hl);
      [now rewrite Hp | reflexivity].
Qed.

Lemma no_failed_write_all_saved (l : list (string * bool)) :
  List.length (filter (fun pw => negb (snd pw)) l) = 0%nat ->
  filter snd l = l.
Proof.
  induction l as [| [p [|]] l IH]; simpl; intros H.
  - reflexivity.
  - now rewrite IH.
  - discriminate.
Qed.

(** C1, as amended: the part of the run that belongs to one sign is the
    run of [capture_sign] from the world the earlier signs left.  Within
    it the index starts from 0 and is advanced by one for every grabbed
    frame, before the write is attempted.  So the n-th [imwrite] call of
    the sign has index n, whatever happened to the earlier writes and to
    the earlier signs; the saved files are those of the calls that
    returned, a subsequence of 1..n in increasing order; and when no
    write fails they are exactly the files 1..n. *)
Theorem sign_file_indices earlier label pre name post later (w : World) :
  let dir := path_join (output_dir args) label in
  let w0 := world_after (before_sign args earlier label pre) w in
  let tr := trace_of (capture_sign args dir name) w0 in
  let n := List.length (writes tr) in
  trace_of (sweep args (earlier ++ (label, pre ++ name :: post) :: later)) w =
    trace_of (before_sign args earlier label pre) w ++ tr
    ++ trace_of (after_sign args label post later)
         (world_after (capture_sign args dir name) w0) /\
  map fst (writes tr) = map (file_path dir name) (seq 1 n) /\
  n = grabbed_frames tr /\
  (exists keep : nat -> bool,
     files_written tr = map (file_path dir name) (filter keep (seq 1 n))) /\
  (failed_writes tr = 0%nat ->
   files_written tr =
   map (file_path dir name) (seq 1 (List.length (files_written tr)))).
Proof.
  intros dir w0 tr n.
  split.
  { rewrite (trace_of_run_eq _ _ _ (sweep_focus args _ _ _ _ _ _ _)).
    now rewrite !trace_of_bind. }
  destruct (capture_sign_trace args dir name w0) as (rest & Ht & _ & Hn).
  fold tr in Ht.
  assert (Hw : writes tr = writes rest) by (rewrite Ht; reflexivity).
  assert (Hg : grabbed_frames tr = grabbed_frames rest)
    by (rewrite Ht; reflexivity).
  destruct Hn as (Hpaths & _ & Hgrab).
  rewrite <- Hw in Hpaths, Hgrab. fold n in Hpaths, Hgrab.
  split; [exact Hpaths |].
  split; [lia |].
  split.
  - eexists. unfold files_written.
    apply (saved_among_numbered (file_path dir name) (writes tr) 1 Hpaths).
  - intros Hnone. unfold files_written, failed_writes in *.
    rewrite (no_failed_write_all_saved _ Hnone).
    rewrite length_map. exact Hpaths.
Qed.

(** C8: a pose whose command is rejected contributes that one command to
    the run and nothing else: no settle delay, no frame request, no file,
    and the index is left as it was.  The sweep goes on with the next
    pose of the grid, then with the remaining signs and groups. *)
Theorem rejected_pose_is_skipped earlier label pre name post later
    grid_before h ang grid_after sign_state (w w1 w2 : World) :
  pose_grid args = grid_before ++ (h, ang) :: grid_after ->
  let dir := path_join (output_dir args) label in
  let visit ha := visit_pose args dir name sign_state (fst ha) (snd ha) in
  get_state name "world" (world_after (before_sign args earlier label pre) w)
    = (Returned sign_state, w1) ->
  let reached := for_each grid_before visit O in
  set_state (car_model_state args sign_state h ang) (world_after reached w1)
    = (Raised, w2) ->
  trace_of (sweep args (earlier ++ (label, pre ++ name :: post) :: later)) w =
  trace_of (before_sign args earlier label pre) w
  ++ [GetState name "world" (Returned sign_state)]
  ++ trace_of reached w1
  ++ [SetState (car_model_state args sign_state h ang) Raised]
  ++ trace_of (bind (for_each grid_after visit (value_of reached w1))
                    (fun _ => after_sign args label post later)) w2.
Proof.
  intros Hgrid dir visit Hq reached Hset.
  rewrite (trace_of_run_eq _ _ _ (sweep_focus args _ _ _ _ _ _ _)).
  rewrite trace_of_bind. f_equal.
  rewrite trace_of_bind.
  set (w0 := world_after (before_sign args earlier label pre) w) in *.
  destruct (run_parts _ _ _ _ _ (capture_sign_found args dir _ _ _ _ Hq))
    as (_ & Hw & Ht).
  fold dir. rewrite Hw, Ht. simpl. f_equal.
  assert (Hposes : sweep_poses args dir name sign_state w1 =
                   bind reached (fun idx => bind (visit (h, ang) idx)
                                  (for_each grid_after visit)) w1).
  { rewrite sweep_poses_flat, Hgrid. fold visit.
    rewrite for_each_app. reflexivity. }
  assert (Hvisit : visit (h, ang) (value_of reached w1) (world_after reached w1)
                   = (value_of reached w1, w2,
                      [SetState (car_model_state args sign_state h ang) Raised])).
  { unfold visit. simpl. now apply visit_pose_rejected. }
  destruct (run_parts _ _ _ _ _ Hvisit) as (Hv1 & Hv2 & Hv3).
  rewrite (trace_of_run_eq _ _ _ Hposes), (world_after_run_eq _ _ _ Hposes).
  rewrite !world_after_bind, !trace_of_bind, Hv1, Hv2, Hv3.
  now rewrite <- !app_assoc.
Qed.

(** *** The order of the sweep *)

Lemma follows_plan_app (t1 t2 : Trace) :
  follows_plan args t1 -> follows_plan args t2 -> follows_plan args (t1 ++ t2).
Proof.
  unfold follows_plan. intros H1 H2.
  now rewrite steps_app, queries_app, flat_map_app, H1, H2.
Qed.

Lemma capture_sign_order dir name (w : World) :
  let tr := trace_of (capture_sign args dir name) w in
  visits tr = [LookUp name] /\
  queries tr = [(name, fst (get_state name "world" w))] /\
  steps tr =
    LookUp name
      :: map MoveTo (planned_moves args (fst (get_state name "world" w))) /\
  pose_commands tr = planned_moves args (fst (get_state name "world" w)).
Proof.
  intros tr.
  destruct (capture_sign_trace args dir name w)
    as (rest & Ht & (H1 & H2 & H3 & H4) & _).
  fold tr in Ht. rewrite Ht. simpl. now rewrite H1, H2, H3, H4.
Qed.

Lemma signs_order dir (sign_list : list string) (w : World) :
  let tr :=
    trace_of (for_each sign_list
                (fun sign_name _ => capture_sign args dir sign_name) tt) w in
  visits tr = map LookUp sign_list /\
  map fst (queries tr) = sign_list /\
  follows_plan args tr.
Proof.
  revert w. induction sign_list as [| name l IH]; intros w tr; subst tr; simpl.
  - now repeat split.
  - rewrite trace_of_bind.
    destruct (value_of (capture_sign args dir name) w).
    destruct (capture_sign_order dir name w) as (Hv & Hq & Hs & _).
    destruct (IH (world_after (capture_sign args dir name) w)) as (Hv' & Hq' & Hp').
    rewrite visits_app, queries_app, map_app, Hv, Hv', Hq, Hq'.
    repeat split.
    apply follows_plan_app; [| exact Hp'].
    unfold follows_plan. rewrite Hs, Hq. simpl. now rewrite app_nil_r.
Qed.

Lemma sweep_follows_plan groups (w : World) :
  let tr := trace_of (sweep args groups) w in
  visits tr =
    flat_map (fun g => EnterGroup (path_join (output_dir args) (fst g))
                         :: map LookUp (snd g)) groups /\
  map fst (queries tr) = flat_map snd groups /\
  follows_plan args tr.
Proof.
  unfold sweep. revert w.
  induction groups as [| [label sign_list] gs IH]; intros w; simpl.
  - now repeat split.
  - rewrite !trace_of_bind, ?world_after_bind.
    repeat match goal with
           | |- context [for_each _ _ (value_of ?m ?w0)] =>
               destruct (value_of m w0)
           end.
    destruct (signs_order (path_join (output_dir args) label) sign_list
                (world_after (ensure_dir (path_join (output_dir args) label)) w))
      as (Hv & Hq & Hp).
    match goal with
    | |- context [trace_of (for_each gs _ _) ?w'] =>
        destruct (IH w') as (Hv' & Hq' & Hp')
    end.
    rewrite !visits_app, !queries_app, !map_app, Hv, Hv', Hq, Hq'.
    repeat split.
    apply (follows_plan_app [_]); [reflexivity |].
    apply follows_plan_app; assumption.
Qed.

(** When the pre-flight check passes, the run is that sweep over the two
    fixed groups. *)
Lemma main_runs_sweep (w w' : World) probe :
  wait_for_message (image_topic args) 5 (makedirs (output_dir args) w)
    = (Returned probe, w') ->
  trace_of (main args) w =
  EnsureDir (output_dir args)
    :: WaitForMessage (image_topic args) 5 (Returned probe)
    :: trace_of (sweep args targets) w'.
Proof.
  intros H. unfold main, trace_of, bind, ensure_dir, call_wait_for_message.
  rewrite H. now destruct (sweep args targets w') as [[u w2] t].
Qed.

(** C9: a sweep enters the groups in the listed order and looks up the
    signs of each group in the listed order; for every sign that is found
    it then commands the poses of all configured angles, in the order of
    [angles_deg], at the first configured height, then of all angles at
    the second height, and so on, each computed from the answer to that
    sign's look-up.  The run itself, once the pre-flight check has passed,
    looks up the seven STOP signs and then the four PARKING signs in the
    order of lines 61-62 and commands the poses in the same way.  The
    sequence of pose commands is thus a function of the configuration and
    of the answers to the look-ups. *)
Theorem sweep_order groups (w : World) :
  let plan := fun q : string * Outcome Pose =>
    LookUp (fst q)
      :: match snd q with
         | Returned sign_state =>
             map (fun ha => MoveTo (car_model_state args sign_state
                                      (fst ha) (snd ha)))
                 (list_prod (heights args) (map radians (angles_deg args)))
         | Raised => []
         end in
  let tr := trace_of (sweep args groups) w in
  let run := trace_of (main args) w in
  (visits tr =
     flat_map (fun g => EnterGroup (path_join (output_dir args) (fst g))
                          :: map LookUp (snd g)) groups /\
   map fst (queries tr) = flat_map snd groups /\
   steps tr = flat_map plan (queries tr)) /\
  (map fst (queries run) =
     match fst (wait_for_message (image_topic args) 5
                  (makedirs (output_dir args) w)) with
     | Returned _ =>
         ["STOP_A"; "STOP_C"; "STOP_E"; "STOP_G"; "STOP_W"; "STOP_Y"; "STOP_Z";
          "PRK_P1"; "PRK_P2"; "PRK_P3"; "PRK_P4"]%string
     | Raised => []
     end /\
   steps run = flat_map plan (queries run)).
Proof.
  intros plan tr run.
  assert (Hplan : forall t : Trace,
            follows_plan args t -> steps t = flat_map plan (queries t)).
  { intros t Hp. unfold follows_plan in Hp. rewrite Hp.
    apply flat_map_ext. intros [n [sign_state |]]; simpl; [| reflexivity].
    unfold plan, pose_grid, angles. simpl. now rewrite map_map. }
  split.
  - destruct (sweep_follows_plan groups w) as (Hv & Hq & Hp).
    repeat split; try assumption. now apply Hplan.
  - subst run.
    destruct (wait_for_message (image_topic args) 5
                (makedirs (output_dir args) w)) as [[probe |] w'] eqn:Hprobe.
    + rewrite (main_runs_sweep w w' probe Hprobe).
      destruct (sweep_follows_plan targets w') as (_ & Hq & Hp).
      change (queries (EnsureDir (output_dir args)
                       :: WaitForMessage (image_topic args) 5 (Returned probe)
                       :: trace_of (sweep args targets) w'))
        with (queries (trace_of (sweep args targets) w')).
      change (steps (EnsureDir (output_dir args)
                     :: WaitForMessage (image_topic args) 5 (Returned probe)
                     :: trace_of (sweep args targets) w'))
        with (steps (trace_of (sweep args targets) w')).
      split; [rewrite Hq; reflexivity | now apply Hplan].
    + unfold main, trace_of, bind, ensure_dir, call_wait_for_message.
      rewrite Hprobe. now split.
Qed.

(** C10: a sign that is found is looked up once, before any of its poses
    is commanded, and every pose commanded for it, at every height and
    angle, is computed from the answer to that one look-up, whatever the
    world does afterwards. *)
Theorem sign_pose_queried_once dir name sign_state (w w1 : World) :
  get_state name "world" w = (Returned sign_state, w1) ->
  let tr := trace_of (capture_sign args dir name) w in
  (exists rest,
     tr = GetState name "world" (Returned sign_state) :: rest /\
     queries rest = []) /\
  queries tr = [(name, Returned sign_state)] /\
  pose_commands tr =
    map (fun ha => car_model_state args sign_state (fst ha) (snd ha))
        (list_prod (heights args) (angles args)).
Proof.
  intros Hq tr.
  destruct (capture_sign_trace args dir name w)
    as (rest & Ht & (H1 & H2 & H3 & H4) & _).
  fold tr in Ht. rewrite Hq in Ht, H1, H2. simpl in Ht, H1, H2.
  split; [exists rest; now split |].
  rewrite Ht. simpl. rewrite H3, H2. now split.
Qed.

End Properties.

(** ** Runs of the scripted simulator *)

Import Scripted.

(** C1, as stated, fails: two shots at one pose, the first write raises
    and the second returns.  The failed write has used index 1, the only
    saved file has index 2, and a shot whose write raises returns the
    index advanced. *)
Lemma index_gap_after_failed_write :
  let tr := trace_of (capture_sign (single_pose_args 2) stop_dir "STOP_A")
                     (start [true; true; true; false]) in
  writes tr = [("dataset/STOP/STOP_A_0001.png", false);
               ("dataset/STOP/STOP_A_0002.png", true)]%string /\
  files_written tr = ["dataset/STOP/STOP_A_0002.png"%string] /\
  files_written tr <>
    map (file_path stop_dir "STOP_A") (seq 1 (List.length (files_written tr))) /\
  failed_writes (trace_of (take_shot (single_pose_args 2) stop_dir "STOP_A" 0)
                          (start [true; false])) = 1%nat /\
  value_of (take_shot (single_pose_args 2) stop_dir "STOP_A" 0)
           (start [true; false]) = 1%nat.
Proof.
  repeat split; try reflexivity. discriminate.
Qed.

Lemma car_position_on_circle_witness :
  0 < radius default_args /\
  sqrt ((pos_x (position (pose (car_model_state default_args (sign_pose_at 0)
                                  0.15 (radians 20)))) - INR 0)²
        + (pos_y (position (pose (car_model_state default_args (sign_pose_at 0)
                                    0.15 (radians 20)))) - 0)²)
    = radius default_args.
Proof.
  assert (H : 0 < radius default_args) by (simpl; lra).
  split; [exact H |].
  exact (proj1 (proj2 (proj2 (proj2
    (car_position_on_circle default_args (sign_pose_at 0) 0.15 (radians 20) H))))).
Defined.

Lemma car_yaw_faces_sign_witness :
  0 < radius default_args /\
  orientation (pose (car_model_state default_args (sign_pose_at 0)
                       0.15 (radians 20))) =
    {| ori_x := 0; ori_y := 0;
       ori_z := sin (atan2 (0 - pos_y (position (pose (car_model_state
                              default_args (sign_pose_at 0) 0.15 (radians 20)))))
                           (INR 0 - pos_x (position (pose (car_model_state
                              default_args (sign_pose_at 0) 0.15 (radians 20)))))
                     * 0.5);
       ori_w := cos (atan2 (0 - pos_y (position (pose (car_model_state
                              default_args (sign_pose_at 0) 0.15 (radians 20)))))
                           (INR 0 - pos_x (position (pose (car_model_state
                              default_args (sign_pose_at 0) 0.15 (radians 20)))))
                     * 0.5) |} /\
  exists k : Z,
    atan2 (0 - pos_y (position (pose (car_model_state
                default_args (sign_pose_at 0) 0.15 (radians 20)))))
          (INR 0 - pos_x (position (pose (car_model_state
                default_args (sign_pose_at 0) 0.15 (radians 20))))) =
    radians 20 + PI + 2 * IZR k * PI.
Proof.
  assert (H : 0 < radius default_args) by (simpl; lra).
  split; [exact H |].
  pose proof (car_yaw_faces_sign default_args (sign_pose_at 0) 0.15 (radians 20) H)
    as (Ho & _ & _ & Hk).
  split; [exact Ho | exact Hk].
Defined.

Lemma quat_from_yaw_round_trip_witness :
  - (2 * PI) < 0 <= 2 * PI /\ yaw_from_quat (quat_from_yaw 0) = 0.
Proof.
  assert (H : - (2 * PI) < 0 <= 2 * PI) by (pose proof PI_RGT_0; lra).
  split; [exact H |].
  exact (proj2 (proj2 (proj2 (proj2 (quat_from_yaw_round_trip 0)))) H).
Defined.

Lemma preflight_failure_aborts_witness :
  wait_for_message (image_topic default_args) 5
    (makedirs (output_dir default_args) (start [false]))
    = (Raised, {| script := []; clock := 1 |}) /\
  files_written (trace_of (main default_args) (start [false])) = [] /\
  pose_commands (trace_of (main default_args) (start [false])) = [].
Proof.
  assert (H : wait_for_message (image_topic default_args) 5
                (makedirs (output_dir default_args) (start [false]))
              = (Raised, {| script := []; clock := 1 |})) by reflexivity.
  split; [exact H |].
  exact (proj2 (proj2 (preflight_failure_aborts default_args _ _ H))).
Defined.

(** [STOP_C], swept after [STOP_A], starts again from index 1. *)
Lemma sign_file_indices_witness :
  let tr := trace_of (capture_sign (single_pose_args 2)
                        (path_join (output_dir (single_pose_args 2)) "STOP")
                        "STOP_C")
              (world_after (before_sign (single_pose_args 2) [] "STOP"
                              ["STOP_A"%string]) (start [])) in
  failed_writes tr = 0%nat /\
  files_written tr =
    map (file_path (path_join (output_dir (single_pose_args 2)) "STOP") "STOP_C")
        (seq 1 (List.length (files_written tr))).
Proof.
  intros tr.
  assert (H : failed_writes tr = 0%nat) by reflexivity.
  split; [exact H |].
  exact (proj2 (proj2 (proj2 (proj2
    (sign_file_indices (single_pose_args 2) [] "STOP" ["STOP_A"%string]
       "STOP_C" [] [] (start [])))))
    H).
Defined.

Example second_sign_restarts_at_one :
  files_written
    (trace_of (sweep (single_pose_args 2) [("STOP", ["STOP_A"; "STOP_C"])]%string)
              (start []))
  = ["dataset/STOP/STOP_A_0001.png"; "dataset/STOP/STOP_A_0002.png";
     "dataset/STOP/STOP_C_0001.png"; "dataset/STOP/STOP_C_0002.png"]%string.
Proof. reflexivity. Qed.

Example later_sign_still_captured :
  files_written
    (trace_of (sweep (single_pose_args 1) [("STOP", ["STOP_A"; "STOP_C"])]%string)
              (start [false]))
  = ["dataset/STOP/STOP_C_0001.png"%string].
Proof. reflexivity. Qed.

(** The first of two poses is rejected; the second is visited. *)
Lemma rejected_pose_is_skipped_witness :
  let w := start [true; false] in
  let w1 := {| script := [false]; clock := 1 |} in
  let w2 := {| script := []; clock := 2 |} in
  let visit ha :=
    visit_pose two_pose_args (path_join (output_dir two_pose_args) "STOP")
      "STOP_A" (sign_pose_at 0) (fst ha) (snd ha) in
  (pose_grid two_pose_args = [] ++ (0, radians 0) :: [(0, radians 90)] /\
   get_state "STOP_A" "world"
     (world_after (before_sign two_pose_args [] "STOP" []) w)
     = (Returned (sign_pose_at 0), w1) /\
   set_state (car_model_state two_pose_args (sign_pose_at 0) 0 (radians 0))
     (world_after (for_each [] visit O) w1) = (Raised, w2)) /\
  trace_of (sweep two_pose_args
              ([] ++ ("STOP"%string, [] ++ "STOP_A"%string :: []) :: [])) w =
  trace_of (before_sign two_pose_args [] "STOP" []) w
  ++ [GetState "STOP_A" "world" (Returned (sign_pose_at 0))]
  ++ trace_of (for_each [] visit O) w1
  ++ [SetState (car_model_state two_pose_args (sign_pose_at 0) 0 (radians 0))
        Raised]
  ++ trace_of (bind (for_each [(0, radians 90)] visit
                       (value_of (for_each [] visit O) w1))
                    (fun _ => after_sign two_pose_args "STOP" [] [])) w2.
Proof.
  intros w w1 w2 visit.
  assert (H1 : pose_grid two_pose_args = [] ++ (0, radians 0) :: [(0, radians 90)])
    by reflexivity.
  assert (H2 : get_state "STOP_A" "world"
                 (world_after (before_sign two_pose_args [] "STOP" []) w)
               = (Returned (sign_pose_at 0), w1)) by reflexivity.
  assert (H3 : set_state (car_model_state two_pose_args (sign_pose_at 0) 0 (radians 0))
                 (world_after (for_each [] visit O) w1) = (Raised, w2))
    by reflexivity.
  split; [now repeat split |].
  exact (rejected_pose_is_skipped two_pose_args [] "STOP" [] "STOP_A" [] []
           [] 0 (radians 0) [(0, radians 90)] (sign_pose_at 0) w w1 w2 H1 H2 H3).
Defined.

Example pose_after_rejected_one_still_captured :
  files_written
    (trace_of (sweep two_pose_args [("STOP", ["STOP_A"])]%string)
              (start [true; false]))
  = ["dataset/STOP/STOP_A_0001.png"%string].
Proof. reflexivity. Qed.

(** The sign drifts while it is swept; the poses use the first answer. *)
Lemma sign_pose_queried_once_witness :
  let w := start [] in
  let tr := trace_of (capture_sign default_args stop_dir "STOP_A") w in
  get_state "STOP_A" "world" w
    = (Returned (sign_pose_at 0), {| script := []; clock := 1 |}) /\
  queries tr = [("STOP_A"%string, Returned (sign_pose_at 0))] /\
  pose_commands tr =
    map (fun ha => car_model_state default_args (sign_pose_at 0) (fst ha) (snd ha))
        (list_prod (heights default_args) (angles default_args)).
Proof.
  intros w tr.
  assert (H : get_state "STOP_A" "world" w
              = (Returned (sign_pose_at 0), {| script := []; clock := 1 |}))
    by reflexivity.
  split; [exact H |].
  exact (proj2 (sign_pose_queried_once default_args stop_dir "STOP_A"
                  (sign_pose_at 0) w _ H)).
Defined.

(** ** The comma separated flags *)

Import Flags.

Lemma split_comma_cons (s : string) :
  exists piece pieces, split_comma s = piece :: pieces.
Proof.
  destruct s as [| c s]; simpl; [now eexists; eexists |].
  destruct (is_comma c); [now eexists; eexists |].
  destruct (split_comma s); now eexists; eexists.
Qed.

Lemma concat_cons_cons (sep x y : string) (l : list string) :
  String.concat sep (x :: y :: l) = (x ++ sep ++ String.concat sep (y :: l))%string.
Proof. reflexivity. Qed.

Lemma is_comma_eq (c : ascii) : is_comma c = true -> c = ","%char.
Proof. unfold is_comma. apply Ascii.eqb_eq. Qed.

Lemma split_comma_pieces (s : string) :
  String.concat "," (split_comma s) = s /\
  Forall (fun piece => all_chars (fun c => negb (is_comma c)) piece = true)
         (split_comma s).
Proof.
  induction s as [| c s IH]; simpl.
  - split; [reflexivity | now repeat constructor].
  - destruct IH as [IHj IHc].
    destruct (split_comma_cons s) as (p & ps & Hs).
    rewrite Hs in *.
    destruct (is_comma c) eqn:Hc.
    + rewrite concat_cons_cons, IHj, (is_comma_eq c Hc).
      split; [reflexivity | now constructor].
    + pose proof (Forall_inv IHc) as Hp.
      pose proof (Forall_inv_tail IHc) as Hps.
      split.
      * rewrite <- IHj. destruct ps; reflexivity.
      * constructor; [simpl; now rewrite Hc | assumption].
Qed.

(** X1: joining the pieces of a flag with commas gives the flag back, and
    no piece holds a comma. *)
Theorem split_comma_join (s : string) :
  String.concat "," (split_comma s) = s /\
  Forall (fun piece => all_chars (fun c => negb (is_comma c)) piece = true)
         (split_comma s).
Proof. apply split_comma_pieces. Qed.

Lemma split_comma_free (x : string) :
  all_chars (fun c => negb (is_comma c)) x = true -> split_comma x = [x].
Proof.
  induction x as [| c x IH]; simpl; [reflexivity |].
  intros H. apply andb_prop in H. destruct H as [Hc Hx].
  apply negb_true_iff in Hc. now rewrite Hc, (IH Hx).
Qed.

Lemma split_comma_app (a b : string) :
  split_comma (a ++ "," ++ b) = split_comma a ++ split_comma b.
Proof.
  induction a as [| c a IH]; simpl; [reflexivity |].
  simpl in IH. rewrite IH.
  destruct (is_comma c); [reflexivity |].
  destruct (split_comma_cons a) as (p & ps & Hs).
  now rewrite Hs.
Qed.

(** X2: splitting a comma-joined list of comma-free pieces gives the
    pieces back, blank ones included. *)
Theorem split_comma_of_join (pieces : list string) :
  pieces <> [] ->
  Forall (fun piece => all_chars (fun c => negb (is_comma c)) piece = true)
         pieces ->
  split_comma (String.concat "," pieces) = pieces.
Proof.
  intros Hne Hfree. induction Hfree as [| x l Hx Hl IH]; [contradiction |].
  destruct l as [| y l].
  - simpl. now apply split_comma_free.
  - rewrite concat_cons_cons, split_comma_app, IH by discriminate.
    now rewrite (split_comma_free x Hx).
Qed.

Lemma split_comma_of_join_witness :
  ["0.15"; " "; "0.25 "]%string <> [] /\
  split_comma (String.concat "," ["0.15"; " "; "0.25 "]%string)
    = ["0.15"; " "; "0.25 "]%string.
Proof.
  assert (H : ["0.15"; " "; "0.25 "]%string <> []) by discriminate.
  split; [exact H |].
  apply (split_comma_of_join _ H). repeat constructor.
Defined.

(** *** Stripping *)

Lemma lstrip_head (s : string) :
  match lstrip s with
  | EmptyString => True
  | String c _ => is_space c = false
  end.
Proof.
  induction s as [| c s IH]; simpl; [exact I |].
  destruct (is_space c) eqn:Hc; [exact IH | exact Hc].
Qed.

Lemma lstrip_fixed (s : string) :
  match s with
  | EmptyString => True
  | String c _ => is_space c = false
  end -> lstrip s = s.
Proof. destruct s as [| c s]; simpl; [reflexivity | now intros ->]. Qed.

Lemma lstrip_idem (s : string) : lstrip (lstrip s) = lstrip s.
Proof. apply lstrip_fixed, lstrip_head. Qed.

Lemma rstrip_idem (s : string) : rstrip (rstrip s) = rstrip s.
Proof.
  induction s as [| c s IH]; simpl; [reflexivity |].
  destruct (rstrip s) as [| k ks] eqn:Hr.
  - destruct (is_space c) eqn:Hc; simpl; [reflexivity | now rewrite Hc].
  - simpl in *. now rewrite IH.
Qed.

Lemma lstrip_rstrip (s : string) : lstrip (rstrip s) = rstrip (lstrip s).
Proof.
  induction s as [| c s IH]; simpl; [reflexivity |].
  destruct (is_space c) eqn:Hc.
  - rewrite <- IH. destruct (rstrip s) as [| k ks]; simpl.
    + reflexivity.
    + now rewrite Hc.
  - simpl. destruct (rstrip s) as [| k ks]; simpl; now rewrite Hc.
Qed.

Lemma strip_fixed (s : string) :
  lstrip (strip s) = strip s /\ rstrip (strip s) = strip s.
Proof.
  unfold strip. split.
  - now rewrite lstrip_rstrip, lstrip_idem.
  - apply rstrip_idem.
Qed.

Lemma lstrip_keeps (p : ascii -> bool) (s : string) :
  all_chars p s = true -> all_chars p (lstrip s) = true.
Proof.
  induction s as [| c s IH]; simpl; [reflexivity |].
  intros H. destruct (is_space c); [| exact H].
  apply andb_prop in H. now apply IH.
Qed.

Lemma rstrip_keeps (p : ascii -> bool) (s : string) :
  all_chars p s = true -> all_chars p (rstrip s) = true.
Proof.
  induction s as [| c s IH]; simpl; [reflexivity |].
  intros H. apply andb_prop in H. destruct H as [Hc Hs].
  specialize (IH Hs).
  destruct (rstrip s) as [| k ks].
  - destruct (is_space c); simpl; [reflexivity | now rewrite Hc].
  - simpl in *. now rewrite Hc, IH.
Qed.

Lemma lstrip_empty (s : string) :
  lstrip s = EmptyString <-> all_chars is_space s = true.
Proof.
  induction s as [| c s IH]; simpl; [tauto |].
  destruct (is_space c); simpl; [exact IH |].
  split; discriminate.
Qed.

Lemma rstrip_empty (s : string) :
  rstrip s = EmptyString <-> all_chars is_space s = true.
Proof.
  induction s as [| c s IH]; simpl; [tauto |].
  destruct (rstrip s) as [| k ks].
  - destruct (is_space c); simpl.
    + split; [intros _; now apply IH | reflexivity].
    + split; discriminate.
  - split; [discriminate |].
    intros H. apply andb_prop in H. destruct H as [_ H].
    apply IH in H. discriminate.
Qed.

Lemma strip_empty (s : string) :
  strip s = EmptyString <-> all_chars is_space s = true.
Proof.
  unfold strip. rewrite <- lstrip_rstrip, lstrip_empty.
  split.
  - intros H. apply rstrip_empty. apply rstrip_empty in H.
    now rewrite rstrip_idem in H.
  - intros H. apply rstrip_keeps. exact H.
Qed.

(** X3: every token of a flag is non-empty, holds no comma and has no
    whitespace at either end. *)
Theorem tokens_are_stripped (flag : string) :
  Forall (fun t => truthy t = true /\ lstrip t = t /\ rstrip t = t /\
                   all_chars (fun c => negb (is_comma c)) t = true)
         (tokens flag).
Proof.
  unfold tokens. apply Forall_forall. intros t Ht.
  apply in_map_iff in Ht. destruct Ht as (x & <- & Hx).
  apply filter_In in Hx. destruct Hx as [Hin Htruthy].
  destruct (strip_fixed x) as [Hl Hr].
  repeat split; try assumption.
  unfold strip. apply rstrip_keeps, lstrip_keeps.
  destruct (split_comma_pieces flag) as [_ Hfree].
  rewrite Forall_forall in Hfree. now apply Hfree.
Qed.

(** X4: the tokens of two flags joined by a comma are the tokens of the
    first followed by the tokens of the second. *)
Theorem tokens_app (a b : string) :
  tokens (a ++ "," ++ b) = tokens a ++ tokens b.
Proof.
  unfold tokens. now rewrite split_comma_app, filter_app, map_app.
Qed.

Lemma blank_pieces (flag : string) :
  blank flag = true <->
  Forall (fun piece => all_chars is_space piece = true) (split_comma flag).
Proof.
  unfold blank. induction flag as [| c s IH]; simpl.
  - split; [now repeat constructor | reflexivity].
  - destruct (split_comma_cons s) as (p & ps & Hs). rewrite Hs in *.
    destruct (is_comma c) eqn:Hc; simpl.
    + rewrite IH. split.
      * intros H. now constructor.
      * intros H. exact (Forall_inv_tail H).
    + split.
      * intros H. apply andb_prop in H. destruct H as [Hsp Hb].
        apply IH in Hb.
        constructor; [| exact (Forall_inv_tail Hb)].
        simpl. now rewrite Hsp, (Forall_inv Hb).
      * intros H. pose proof (Forall_inv H) as Hhead. simpl in Hhead.
        apply andb_prop in Hhead. destruct Hhead as [Hsp Hp].
        rewrite Hsp. simpl. apply IH.
        constructor; [exact Hp | exact (Forall_inv_tail H)].
Qed.

Lemma tokens_nil (flag : string) : tokens flag = [] <-> blank flag = true.
Proof.
  rewrite blank_pieces. unfold tokens.
  induction (split_comma flag) as [| x l IH]; simpl.
  - split; [constructor | reflexivity].
  - destruct (strip x) as [| k ks] eqn:Hx; simpl.
    + rewrite IH. apply strip_empty in Hx. split.
      * intros H. now constructor.
      * intros H. exact (Forall_inv_tail H).
    + split; [discriminate |].
      intros H. pose proof (Forall_inv H) as Hhead.
      apply strip_empty in Hhead. rewrite Hhead in Hx. discriminate.
Qed.

(** X5: a flag yields no token exactly when it holds nothing but commas
    and whitespace; such a flag parses to the empty list without [float]
    being consulted. *)
Theorem blank_flag_parses_to_nothing (flag : string) :
  (tokens flag = [] <-> blank flag = true) /\
  (blank flag = true ->
   forall float, parse_heights float flag = Returned [] /\
                 parse_angles float flag = Returned []).
Proof.
  split; [apply tokens_nil |].
  intros H float. apply tokens_nil in H.
  unfold parse_heights, parse_angles. now rewrite H.
Qed.

Lemma blank_flag_parses_to_nothing_witness :
  blank " , ,"%string = true /\
  parse_heights (fun _ => Raised) " , ,"%string = Returned [].
Proof.
  assert (H : blank " , ,"%string = true) by reflexivity.
  split; [exact H |].
  exact (proj1 (proj2 (blank_flag_parses_to_nothing " , ,"%string) H
                  (fun _ => Raised))).
Defined.

(** ** File names *)

Lemma uint_of_zeros (k : nat) (s : string) :
  NilEmpty.uint_of_string (zeros k ++ s) =
  option_map (Nat.iter k Decimal.D0) (NilEmpty.uint_of_string s).
Proof.
  induction k as [| k IH]; simpl.
  - now destruct (NilEmpty.uint_of_string s).
  - rewrite IH. now destruct (NilEmpty.uint_of_string s).
Qed.

Lemma of_uint_zeros (k : nat) (d : Decimal.uint) :
  Nat.of_uint (Nat.iter k Decimal.D0 d) = Nat.of_uint d.
Proof.
  induction k as [| k IH]; simpl; [reflexivity |].
  rewrite <- IH. reflexivity.
Qed.

Lemma index_of_fmt_04d (idx : nat) : index_of_digits (fmt_04d idx) = Some idx.
Proof.
  unfold index_of_digits, fmt_04d.
  rewrite uint_of_zeros, NilEmpty.usu. simpl.
  now rewrite of_uint_zeros, DecimalNat.Unsigned.of_to.
Qed.

Lemma fmt_04d_length (idx : nat) :
  String.length (fmt_04d idx) =
  Nat.max 4 (String.length (NilEmpty.string_of_uint (Nat.to_uint idx))).
Proof.
  unfold fmt_04d.
  set (d := NilEmpty.string_of_uint (Nat.to_uint idx)).
  assert (Happ : forall a b, String.length (a ++ b) =
                             (String.length a + String.length b)%nat).
  { induction a as [| c a IH]; intros b; simpl; [reflexivity | now rewrite IH]. }
  assert (Hz : forall k, String.length (zeros k) = k).
  { induction k as [| k IH]; simpl; [reflexivity | now rewrite IH]. }
  rewrite Happ, Hz. lia.
Qed.

Lemma fmt_04d_four_wide :
  forallb (fun i => String.length (fmt_04d i) =? 4)%nat (seq 0 (100 * 100)) = true.
Proof. vm_compute. reflexivity. Qed.

(** X6: the index can be read back from the digits of a file name, so
    different indices give different digits; the digits are at least four
    characters wide, and exactly four for an index below 10000. *)
Theorem fmt_04d_round_trip (idx : nat) :
  index_of_digits (fmt_04d idx) = Some idx /\
  (4 <= String.length (fmt_04d idx))%nat /\
  ((Z.of_nat idx < 10000)%Z -> String.length (fmt_04d idx) = 4%nat).
Proof.
  split; [apply index_of_fmt_04d |].
  split; [rewrite fmt_04d_length; lia |].
  intros H.
  pose proof fmt_04d_four_wide as Hall.
  rewrite forallb_forall in Hall.
  apply Nat.eqb_eq, Hall, in_seq. lia.
Qed.

Lemma fmt_04d_round_trip_witness :
  (Z.of_nat 154 < 10000)%Z /\ String.length (fmt_04d 154) = 4%nat.
Proof.
  assert (H : (Z.of_nat 154 < 10000)%Z) by (vm_compute; reflexivity).
  split; [exact H |].
  exact (proj2 (proj2 (fmt_04d_round_trip 154)) H).
Defined.

(** ** More on runs *)

Section MoreRuns.

Context {World Image CvImage : Type} {sim : Simulator World Image CvImage}.
Variable args : Args.

Let Trace := Trace Image CvImage.
Let M := M World Image CvImage.

(** *** Proving a property of every sweep from its pieces *)

Lemma signs_by_pieces (P : Trace -> Prop) dir (names : list string) :
  P [] ->
  (forall t1 t2, P t1 -> P t2 -> P (t1 ++ t2)) ->
  (forall name (w : World), In name names ->
     P (trace_of (capture_sign args dir name) w)) ->
  forall w : World,
    P (trace_of (for_each names
                   (fun sign_name _ => capture_sign args dir sign_name) tt) w).
Proof.
  intros Hnil Happ. induction names as [| name l IH]; intros Hsign w; simpl.
  - exact Hnil.
  - rewrite trace_of_bind.
    destruct (value_of (capture_sign args dir name) w).
    apply Happ; [apply Hsign; now left |].
    apply IH. intros n w' Hn. apply Hsign. now right.
Qed.

Lemma sweep_by_signs (P : Trace -> Prop) groups :
  P [] ->
  (forall t1 t2, P t1 -> P t2 -> P (t1 ++ t2)) ->
  (forall d, P [EnsureDir d]) ->
  (forall label names name (w : World),
     In (label, names) groups -> In name names ->
     P (trace_of (capture_sign args (path_join (output_dir args) label) name) w)) ->
  forall w : World, P (trace_of (sweep args groups) w).
Proof.
  intros Hnil Happ Hdir. unfold sweep.
  induction groups as [| [label names] gs IH]; intros Hsign w; simpl.
  - exact Hnil.
  - rewrite !trace_of_bind, ?world_after_bind.
    repeat match goal with
           | |- context [for_each _ _ (value_of ?m ?w0)] =>
               destruct (value_of m w0)
           end.
    apply Happ; [apply Happ |].
    + apply Hdir.
    + apply signs_by_pieces; auto.
      intros name w' Hn. apply (Hsign label names); [now left | exact Hn].
    + apply IH. intros l ns n w' Hl Hn.
      apply (Hsign l ns); [now right | exact Hn].
Qed.

Lemma poses_by_pieces (P : Trace -> Prop) dir name sign_state
    (grid : list (R * R)) :
  P [] ->
  (forall t1 t2, P t1 -> P t2 -> P (t1 ++ t2)) ->
  (forall h ang idx (w : World),
     P (trace_of (visit_pose args dir name sign_state h ang idx) w)) ->
  forall idx (w : World),
    P (trace_of (for_each grid
                   (fun ha => visit_pose args dir name sign_state
                                (fst ha) (snd ha)) idx) w).
Proof.
  intros Hnil Happ Hpose.
  induction grid as [| [h ang] grid IH]; intros idx w; simpl.
  - exact Hnil.
  - rewrite trace_of_bind. apply Happ; [apply Hpose | apply IH].
Qed.

Lemma sweep_by_poses (P : Trace -> Prop) :
  P [] ->
  (forall t1 t2, P t1 -> P t2 -> P (t1 ++ t2)) ->
  (forall d, P [EnsureDir d]) ->
  (forall name r, P [GetState name "world" r]) ->
  (forall dir name sign_state h ang idx (w : World),
     P (trace_of (visit_pose args dir name sign_state h ang idx) w)) ->
  forall groups (w : World), P (trace_of (sweep args groups) w).
Proof.
  intros Hnil Happ Hdir Hget Hpose groups.
  apply sweep_by_signs; auto.
  intros label names name w _ _.
  set (dir := path_join (output_dir args) label).
  destruct (get_state name "world" w) as [[sign_state |] w'] eqn:Hq.
  - destruct (run_parts _ _ _ _ _ (capture_sign_found args dir _ _ _ _ Hq))
      as (_ & _ & Ht).
    rewrite Ht.
    apply (Happ [_]); [apply Hget |].
    rewrite (trace_of_run_eq _ _ _ (sweep_poses_flat args dir name sign_state w')).
    now apply poses_by_pieces.
  - destruct (run_parts _ _ _ _ _ (capture_sign_missing args dir _ _ _ Hq))
      as (_ & _ & Ht).
    rewrite Ht. apply Hget.
Qed.

(** *** The further observations distribute over concatenation *)

Lemma sleeps_app (t1 t2 : Trace) : sleeps (t1 ++ t2) = sleeps t1 ++ sleeps t2.
Proof. apply flat_map_app. Qed.

Lemma frame_reads_app (t1 t2 : Trace) :
  frame_reads (t1 ++ t2) = frame_reads t1 ++ frame_reads t2.
Proof. apply flat_map_app. Qed.

Lemma accepted_moves_app (t1 t2 : Trace) :
  accepted_moves (t1 ++ t2) = (accepted_moves t1 + accepted_moves t2)%nat.
Proof.
  unfold accepted_moves. now rewrite flat_map_app, filter_app, length_app.
Qed.

Lemma found_signs_app (t1 t2 : Trace) :
  found_signs (t1 ++ t2) = (found_signs t1 + found_signs t2)%nat.
Proof.
  unfold found_signs. now rewrite queries_app, filter_app, length_app.
Qed.

Lemma clean_app (t1 t2 : Trace) : clean (t1 ++ t2) = (clean t1 && clean t2)%bool.
Proof. apply forallb_app. Qed.

(** *** One shot, one pose *)

Lemma take_shot_facts dir name idx (w : World) :
  shot_facts args 1 (trace_of (take_shot args dir name idx) w).
Proof.
  unfold shot_facts, take_shot, grab_frame, bind, ret, call_wait_for_message,
    call_imwrite, trace_of, grabbed_frames, clean.
  destruct (wait_for_message (image_topic args) 2 w) as [[m |] w1]; simpl.
  - destruct (imgmsg_to_cv2 m "bgr8") as [cv |] eqn:Hcv; simpl.
    + destruct (imwrite (file_path dir name (S idx)) cv w1) as [[u |] w2];
        simpl; rewrite Hcv; simpl; repeat split; auto; discriminate.
    + rewrite Hcv. simpl. repeat split; auto; discriminate.
  - repeat split; auto; discriminate.
Qed.

Lemma shot_facts_app n1 n2 (t1 t2 : Trace) :
  shot_facts args n1 t1 -> shot_facts args n2 t2 ->
  shot_facts args (n1 + n2) (t1 ++ t2).
Proof.
  intros (A1 & A2 & A3 & A4 & A5 & A6 & A7) (B1 & B2 & B3 & B4 & B5 & B6 & B7).
  unfold shot_facts.
  rewrite sleeps_app, accepted_moves_app, pose_commands_app, frame_reads_app,
    frame_requests_app, writes_app, grabbed_frames_app, files_written_app,
    clean_app, !length_app.
  rewrite A1, A2, A3, B1, B2, B3.
  repeat split; auto; try lia.
  - apply Forall_app. now split.
  - intros H. apply andb_prop in H. destruct H as [H1 H2].
    rewrite (A7 H1), (B7 H2). reflexivity.
Qed.

Lemma shots_facts dir name (xs : list nat) idx (w : World) :
  shot_facts args (List.length xs)
    (trace_of (for_each xs (fun _ => take_shot args dir name) idx) w).
Proof.
  revert idx w. induction xs as [| x xs IH]; intros idx w; simpl.
  - unfold shot_facts. now repeat split.
  - rewrite trace_of_bind.
    apply (shot_facts_app 1%nat); [apply take_shot_facts | apply IH].
Qed.

(** At a pose the car is commanded first.  If the command is rejected
    nothing else happens; otherwise the script sleeps once and then takes
    the shots. *)
Lemma visit_pose_cases dir name sign_state h ang idx (w : World) :
  let ms := car_model_state args sign_state h ang in
  let tr := trace_of (visit_pose args dir name sign_state h ang idx) w in
  tr = [SetState ms Raised] \/
  exists u shots,
    tr = SetState ms (Returned u) :: Sleep (sleep args) :: shots /\
    shot_facts args (Z.to_nat (shots_per_pose args)) shots.
Proof.
  intros ms tr. subst tr. unfold visit_pose. fold ms.
  pose proof (shots_facts dir name (range (shots_per_pose args)) idx) as Hshots.
  unfold range in Hshots at 1. rewrite length_seq in Hshots.
  unfold bind, call_set_state, call_sleep, trace_of in *.
  destruct (set_state ms w) as [[u |] w1]; simpl; [| now left].
  right. specialize (Hshots (time_sleep (sleep args) w1)).
  destruct (for_each (range (shots_per_pose args))
              (fun _ => take_shot args dir name) idx
              (time_sleep (sleep args) w1)) as [[i w2] t].
  exists u, t. now split.
Qed.

Lemma car_model_state_command sign_state h ang :
  car_command args (car_model_state args sign_state h ang).
Proof.
  unfold car_command. simpl. repeat split. apply sin2_cos2.
Qed.

(** *** Counting over a whole sweep *)

Lemma sweep_settle groups (w : World) :
  let tr := trace_of (sweep args groups) w in
  sleeps tr = repeat (sleep args) (accepted_moves tr) /\
  List.length (frame_requests tr) =
    (accepted_moves tr * Z.to_nat (shots_per_pose args))%nat /\
  Forall (fun read => read = (image_topic args, 2)) (frame_reads tr).
Proof.
  apply (sweep_by_poses
    (fun tr => sleeps tr = repeat (sleep args) (accepted_moves tr) /\
               List.length (frame_requests tr) =
                 (accepted_moves tr * Z.to_nat (shots_per_pose args))%nat /\
               Forall (fun read => read = (image_topic args, 2)) (frame_reads tr))).
  - now repeat split.
  - intros t1 t2 (A1 & A2 & A3) (B1 & B2 & B3).
    rewrite sleeps_app, accepted_moves_app, frame_requests_app, frame_reads_app,
      length_app, repeat_app, A1, B1, A2, B2.
    repeat split; [lia | apply Forall_app; now split].
  - intros d. now repeat split.
  - intros name r. now repeat split.
  - intros dir name sign_state h ang idx w0.
    destruct (visit_pose_cases dir name sign_state h ang idx w0)
      as [-> | (u & shots & -> & S1 & S2 & _ & S4 & S5 & _)].
    + now repeat split.
    + change (sleeps (SetState (car_model_state args sign_state h ang) (Returned u)
                      :: Sleep (sleep args) :: shots))
        with (sleep args :: sleeps shots).
      change (accepted_moves
                (SetState (car_model_state args sign_state h ang) (Returned u)
                 :: Sleep (sleep args) :: shots))
        with (S (accepted_moves shots)).
      change (frame_requests
                (SetState (car_model_state args sign_state h ang) (Returned u)
                 :: Sleep (sleep args) :: shots))
        with (frame_requests shots).
      change (frame_reads
                (SetState (car_model_state args sign_state h ang) (Returned u)
                 :: Sleep (sleep args) :: shots))
        with (frame_reads shots).
      rewrite S1, S2, S5. simpl. repeat split; [lia | exact S4].
Qed.

Lemma sweep_counts groups (w : World) :
  let tr := trace_of (sweep args groups) w in
  List.length (writes tr) = grabbed_frames tr /\
  (accepted_moves tr <= List.length (pose_commands tr))%nat /\
  (clean tr = true ->
   List.length (files_written tr) =
   (List.length (pose_commands tr) * Z.to_nat (shots_per_pose args))%nat) /\
  Forall (car_command args) (pose_commands tr).
Proof.
  apply (sweep_by_poses
    (fun tr => List.length (writes tr) = grabbed_frames tr /\
               (accepted_moves tr <= List.length (pose_commands tr))%nat /\
               (clean tr = true ->
                List.length (files_written tr) =
                (List.length (pose_commands tr)
                 * Z.to_nat (shots_per_pose args))%nat) /\
               Forall (car_command args) (pose_commands tr))).
  - repeat split; auto.
  - intros t1 t2 (A1 & A2 & A3 & A4) (B1 & B2 & B3 & B4).
    rewrite writes_app, grabbed_frames_app, accepted_moves_app,
      pose_commands_app, files_written_app, clean_app, !length_app.
    repeat split; try lia.
    + intros H. apply andb_prop in H. destruct H as [H1 H2].
      rewrite (A3 H1), (B3 H2). lia.
    + apply Forall_app. now split.
  - intros d. repeat split; auto.
  - intros name r. repeat split; auto.
  - intros dir name sign_state h ang idx w0.
    destruct (visit_pose_cases dir name sign_state h ang idx w0)
      as [-> | (u & shots & -> & _ & S2 & S3 & _ & _ & S6 & S7)].
    + split; [reflexivity | split; [| split]].
      * unfold accepted_moves. simpl. lia.
      * discriminate.
      * repeat constructor; apply car_model_state_command.
    + change (writes (SetState (car_model_state args sign_state h ang) (Returned u)
                      :: Sleep (sleep args) :: shots))
        with (writes shots).
      change (files_written
                (SetState (car_model_state args sign_state h ang) (Returned u)
                 :: Sleep (sleep args) :: shots))
        with (files_written shots).
      change (grabbed_frames
                (SetState (car_model_state args sign_state h ang) (Returned u)
                 :: Sleep (sleep args) :: shots))
        with (grabbed_frames shots).
      change (accepted_moves
                (SetState (car_model_state args sign_state h ang) (Returned u)
                 :: Sleep (sleep args) :: shots))
        with (S (accepted_moves shots)).
      change (pose_commands
                (SetState (car_model_state args sign_state h ang) (Returned u)
                 :: Sleep (sleep args) :: shots))
        with (car_model_state args sign_state h ang :: pose_commands shots).
      change (clean (SetState (car_model_state args sign_state h ang) (Returned u)
                     :: Sleep (sleep args) :: shots))
        with (clean shots).
      rewrite S2, S3. simpl.
      split; [exact S6 | split; [lia | split]].
      * intros H. rewrite (S7 H). lia.
      * repeat constructor; apply car_model_state_command.
Qed.

Lemma sweep_found groups (w : World) :
  let tr := trace_of (sweep args groups) w in
  List.length (pose_commands tr) =
  (found_signs tr * (List.length (heights args)
                     * List.length (angles_deg args)))%nat.
Proof.
  apply (sweep_by_signs
    (fun tr => List.length (pose_commands tr) =
               (found_signs tr * (List.length (heights args)
                                  * List.length (angles_deg args)))%nat)).
  - reflexivity.
  - intros t1 t2 H1 H2.
    rewrite pose_commands_app, found_signs_app, length_app, H1, H2. lia.
  - reflexivity.
  - intros label names name w0 _ _.
    destruct (capture_sign_order args (path_join (output_dir args) label) name w0)
      as (_ & Hq & _ & Hp).
    unfold found_signs. rewrite Hp, Hq.
    destruct (fst (get_state name "world" w0)) as [sign_state |]; simpl.
    + unfold pose_grid, angles. rewrite length_map, length_prod, length_map. lia.
    + reflexivity.
Qed.

Lemma sweep_lookups groups (w : World) :
  let tr := trace_of (sweep args groups) w in
  visits tr =
    flat_map (fun g => EnterGroup (path_join (output_dir args) (fst g))
                         :: map LookUp (snd g)) groups /\
  map fst (queries tr) = flat_map snd groups.
Proof.
  unfold sweep. revert w.
  induction groups as [| [label sign_list] gs IH]; intros w; simpl.
  - now split.
  - rewrite !trace_of_bind, ?world_after_bind.
    repeat match goal with
           | |- context [for_each _ _ (value_of ?m ?w0)] =>
               destruct (value_of m w0)
           end.
    destruct (signs_order args (path_join (output_dir args) label) sign_list
                (world_after (ensure_dir (path_join (output_dir args) label)) w))
      as (Hv & Hq & _).
    match goal with
    | |- context [trace_of (for_each gs _ _) ?w'] =>
        destruct (IH w') as (Hv' & Hq')
    end.
    rewrite !visits_app, !queries_app, !map_app, Hv, Hv', Hq, Hq'.
    now split.
Qed.

Lemma found_signs_le (tr : Trace) :
  (found_signs tr <= List.length (queries tr))%nat /\
  (clean tr = true -> found_signs tr = List.length (queries tr)).
Proof.
  unfold found_signs, clean.
  induction tr as [| e tr [IH1 IH2]]; simpl; [now split |].
  destruct e as [d | t o r | n f r | ms r | secs | pth img r]; simpl;
    try (split; [exact IH1 | ]);
    try (intros H; apply andb_prop in H; destruct H as [_ H]; now apply IH2);
    try exact IH2.
  destruct r; simpl; split; try lia; try discriminate.
  intros H. now rewrite (IH2 H).
Qed.

Lemma length_zero_nil {A} (l : list A) : List.length l = 0%nat -> l = [].
Proof. destruct l; [reflexivity | discriminate]. Qed.

(** The size of a sweep on a host on which nothing dies. *)
Lemma sweep_bounds groups (w : World) :
  let tr := trace_of (sweep args groups) w in
  let grid := (List.length (heights args) * List.length (angles_deg args))%nat in
  List.length (pose_commands tr) = (found_signs tr * grid)%nat /\
  (found_signs tr <= List.length (flat_map snd groups))%nat /\
  (List.length (writes tr)
   <= List.length (pose_commands tr) * Z.to_nat (shots_per_pose args))%nat /\
  (List.length (writes tr)
   <= List.length (flat_map snd groups) * grid
      * Z.to_nat (shots_per_pose args))%nat.
Proof.
  intros tr grid.
  pose proof (sweep_found groups w) as Hfound. cbv zeta in Hfound.
  destruct (sweep_settle groups w) as (_ & Hreq & _).
  destruct (sweep_counts groups w) as (Hw & Hacc & _ & _).
  destruct (sweep_lookups groups w) as (_ & Hq).
  destruct (found_signs_le (trace_of (sweep args groups) w)) as (Hle & _).
  pose proof (frames_partition (trace_of (sweep args groups) w)) as Hpart.
  fold tr in Hfound, Hreq, Hw, Hacc, Hq, Hle, Hpart. fold grid in Hfound.
  assert (Hn : List.length (queries tr) = List.length (flat_map snd groups))
    by (rewrite <- Hq; now rewrite length_map).
  set (shots := Z.to_nat (shots_per_pose args)) in *.
  assert (H1 : (List.length (writes tr) <= accepted_moves tr * shots)%nat) by lia.
  assert (H2 : (accepted_moves tr * shots
                <= List.length (pose_commands tr) * shots)%nat)
    by now apply Nat.mul_le_mono_r.
  assert (H3 : (found_signs tr * grid * shots
                <= List.length (flat_map snd groups) * grid * shots)%nat).
  { apply Nat.mul_le_mono_r, Nat.mul_le_mono_r. lia. }
  rewrite Hfound in *. repeat split; lia.
Qed.


Lemma no_shots_total groups (w : World) :
  (shots_per_pose args <= 0)%Z ->
  let tr := trace_of (sweep args groups) w in
  frame_requests tr = [] /\
  writes tr = [] /\
  map fst (queries tr) = flat_map snd groups /\
  List.length (pose_commands tr) =
    (found_signs tr * (List.length (heights args)
                       * List.length (angles_deg args)))%nat.
Proof.
  intros Hshots tr.
  destruct (sweep_settle groups w) as (_ & Hreq & _).
  destruct (sweep_counts groups w) as (Hw & _ & _ & _).
  destruct (sweep_lookups groups w) as (_ & Hq).
  pose proof (frames_partition (trace_of (sweep args groups) w)) as Hpart.
  fold tr in Hreq, Hw, Hq, Hpart.
  replace (Z.to_nat (shots_per_pose args)) with 0%nat in Hreq by lia.
  rewrite Nat.mul_0_r in Hreq.
  repeat split.
  - now apply length_zero_nil.
  - apply length_zero_nil. lia.
  - exact Hq.
  - apply sweep_found.
Qed.


(** X12: every pose command of a sweep addresses the car model in the
    world frame, with a rotation about the vertical axis only (x = y = 0)
    given by a unit quaternion. *)
Theorem every_command_moves_the_car groups (w : World) :
  Forall (car_command args) (pose_commands (trace_of (sweep args groups) w)).
Proof. apply sweep_counts. Qed.

End MoreRuns.

(** ** The run with uncaught exceptions agrees with the run without *)

Section Agreement.

Context {World Image CvImage : Type} {sim : Simulator World Image CvImage}
        {host : Unguarded World}.
Variable args : Args.

Let Trace := Trace Image CvImage.
Let M := M World Image CvImage.
Let X := Uncaught.X World Image CvImage.

Lemma agrees_ret {A} (a : A) : agrees (Uncaught.ret a : X A) (ret a).
Proof. intros w. reflexivity. Qed.

Lemma agrees_guarded {A} (m : M A) : agrees (Uncaught.guarded m) m.
Proof.
  intros w. unfold Uncaught.guarded. now destruct (m w) as [[a w'] t].
Qed.

Lemma agrees_bind {A B} (x : X A) (m : M A) (k : A -> X B) (k' : A -> M B) :
  agrees x m -> (forall a, agrees (k a) (k' a)) ->
  agrees (Uncaught.bind x k) (bind m k').
Proof.
  intros Hx Hk w. specialize (Hx w). unfold Uncaught.bind.
  destruct (x w) as [[[a |] w1] t1].
  - specialize (Hk a w1).
    destruct (k a w1) as [[[b |] w2] t2].
    + unfold bind. now rewrite Hx, Hk.
    + destruct Hk as [rest Hrest]. exists rest.
      rewrite trace_of_bind.
      destruct (run_parts _ _ _ _ _ Hx) as (Hv & Hw & Ht).
      now rewrite Hv, Hw, Ht, Hrest, app_assoc.
  - destruct Hx as [rest Hrest].
    eexists. rewrite trace_of_bind, Hrest, <- app_assoc. reflexivity.
Qed.

Lemma agrees_for_each {A S} (xs : list A) (body : A -> S -> X S)
    (body' : A -> S -> M S) :
  (forall x s, agrees (body x s) (body' x s)) ->
  forall s, agrees (Uncaught.for_each xs body s) (for_each xs body' s).
Proof.
  intros Hbody. induction xs as [| x xs IH]; intros s; simpl.
  - apply agrees_ret.
  - apply agrees_bind; [apply Hbody | exact IH].
Qed.

Lemma agrees_ensure_dir path :
  agrees (Uncaught.ensure_dir path) (ensure_dir path).
Proof.
  intros w. unfold Uncaught.ensure_dir.
  destruct (makedirs_raises path w); [now exists [] | reflexivity].
Qed.

Lemma agrees_call_sleep secs :
  agrees (Uncaught.call_sleep secs) (call_sleep secs).
Proof.
  intros w. unfold Uncaught.call_sleep.
  destruct (sleep_raises secs w); [now exists [] | reflexivity].
Qed.

Lemma agrees_visit_pose dir name sign_state h ang idx :
  agrees (Uncaught.visit_pose args dir name sign_state h ang idx)
         (visit_pose args dir name sign_state h ang idx).
Proof.
  unfold Uncaught.visit_pose, visit_pose.
  apply agrees_bind; [apply agrees_guarded |].
  intros [u |]; [| apply agrees_ret].
  apply agrees_bind; [apply agrees_call_sleep |].
  intros _. apply agrees_guarded.
Qed.

Lemma agrees_capture_sign dir name :
  agrees (Uncaught.capture_sign args dir name) (capture_sign args dir name).
Proof.
  unfold Uncaught.capture_sign, capture_sign.
  apply agrees_bind; [apply agrees_guarded |].
  intros [sign_state |]; [| apply agrees_ret].
  apply agrees_bind; [| intros _; apply agrees_ret].
  unfold Uncaught.sweep_poses, sweep_poses.
  apply agrees_for_each. intros h idx.
  apply agrees_for_each. intros ang idx'.
  apply agrees_visit_pose.
Qed.

Lemma agrees_sweep groups :
  agrees (Uncaught.sweep args groups) (sweep args groups).
Proof.
  unfold Uncaught.sweep, sweep.
  apply agrees_for_each. intros [label names] [].
  unfold Uncaught.capture_group, capture_group.
  apply agrees_bind; [apply agrees_ensure_dir |].
  intros _. apply agrees_for_each. intros name [].
  apply agrees_capture_sign.
Qed.

Lemma agrees_main : agrees (Uncaught.main args) (main args).
Proof.
  unfold Uncaught.main, main.
  apply agrees_bind; [apply agrees_ensure_dir |].
  intros _. apply agrees_bind; [apply agrees_guarded |].
  intros [probe |]; [apply agrees_sweep | apply agrees_ret].
Qed.

(** *** What agreement gives *)

Lemma agrees_traces {A} (x : X A) (m : M A) (w : World) :
  agrees x m ->
  (exists rest, trace_of m w = Uncaught.trace_of x w ++ rest) /\
  (forall a, Uncaught.ending_of x w = Completed a ->
             Uncaught.trace_of x w = trace_of m w).
Proof.
  intros H. specialize (H w).
  unfold Uncaught.trace_of, Uncaught.ending_of.
  destruct (x w) as [[[a |] w'] t]; simpl.
  - destruct (run_parts _ _ _ _ _ H) as (_ & _ & Ht).
    split; [exists []; now rewrite app_nil_r | intros _ _; now rewrite Ht].
  - split; [exact H | discriminate].
Qed.

End Agreement.

(** ** Where the files go *)

Lemma append_inv_head (a x y : string) : (a ++ x = a ++ y)%string -> x = y.
Proof.
  induction a as [| c a IH]; simpl; intros H; [exact H |].
  injection H as H. now apply IH.
Qed.

Lemma length_append (a b : string) :
  String.length (a ++ b) = (String.length a + String.length b)%nat.
Proof. induction a as [| c a IH]; simpl; [reflexivity | now rewrite IH]. Qed.

Lemma append_inv_tail (x y c : string) : (x ++ c = y ++ c)%string -> x = y.
Proof.
  revert y. induction x as [| a x IH]; intros [| b y] H; simpl in H.
  - reflexivity.
  - apply (f_equal String.length) in H. simpl in H.
    rewrite length_append in H. lia.
  - apply (f_equal String.length) in H. simpl in H.
    rewrite length_append in H. lia.
  - injection H as -> H. f_equal. now apply IH.
Qed.

Lemma append_assoc (a b c : string) : ((a ++ b) ++ c = a ++ b ++ c)%string.
Proof. induction a as [| x a IH]; simpl; [reflexivity | now rewrite IH]. Qed.

Lemma ends_with_slash_append (a b : string) :
  truthy b = true -> ends_with_slash (a ++ b) = ends_with_slash b.
Proof.
  intros Hb. induction a as [| c a IH]; simpl; [reflexivity |].
  rewrite IH. destruct (a ++ b)%string eqn:Hab; [| reflexivity].
  destruct a; [simpl in Hab; subst b; discriminate | discriminate].
Qed.

Lemma file_name_inj (name : string) (i j : nat) :
  (name ++ "_" ++ fmt_04d i ++ ".png" = name ++ "_" ++ fmt_04d j ++ ".png")%string ->
  i = j.
Proof.
  intros H. apply append_inv_head in H. simpl in H. injection H as H.
  apply append_inv_tail in H.
  pose proof (index_of_fmt_04d i) as Hi.
  rewrite H, index_of_fmt_04d in Hi. now injection Hi.
Qed.

Lemma file_path_inj (dir name : string) (i j : nat) :
  file_path dir name i = file_path dir name j -> i = j.
Proof.
  unfold file_path, path_join. intros H. apply (file_name_inj name).
  assert (Hs : forall k,
    starts_with_slash (name ++ "_" ++ fmt_04d k ++ ".png") =
    starts_with_slash (name ++ "_")).
  { intros k. destruct name; reflexivity. }
  rewrite !Hs in H.
  destruct (starts_with_slash (name ++ "_")); [exact H |].
  destruct (String.eqb dir EmptyString || ends_with_slash dir)%bool.
  - now apply append_inv_head in H.
  - apply append_inv_head in H. simpl in H. now injection H.
Qed.

Lemma NoDup_map_inj {A B} (f : A -> B) (l : list A) :
  (forall x y, f x = f y -> x = y) -> NoDup l -> NoDup (map f l).
Proof.
  intros Hinj. induction 1 as [| x l Hx Hl IH]; simpl; constructor; auto.
  intros Hin. apply in_map_iff in Hin. destruct Hin as (y & Hy & Hin).
  apply Hinj in Hy. now subst y.
Qed.

(** The layout of a path below a plain label. *)
Lemma file_path_layout (args : Args) (label name : string) (idx : nat) :
  truthy label = true ->
  starts_with_slash label = false ->
  ends_with_slash label = false ->
  starts_with_slash name = false ->
  file_path (path_join (output_dir args) label) name idx =
  layout args label name idx.
Proof.
  intros Hne Hhead Htail Hname.
  unfold file_path, layout, dir_separator.
  assert (Hdir : path_join (output_dir args) label =
                 (output_dir args ++ dir_separator (output_dir args) ++ label)%string).
  { unfold path_join, dir_separator. rewrite Hhead.
    now destruct (String.eqb (output_dir args) EmptyString
                  || ends_with_slash (output_dir args))%bool. }
  rewrite Hdir. unfold path_join, dir_separator.
  assert (Hfile : starts_with_slash (name ++ "_" ++ fmt_04d idx ++ ".png") = false).
  { destruct name; [reflexivity | exact Hname]. }
  rewrite Hfile.
  set (sep := if (String.eqb (output_dir args) EmptyString
                  || ends_with_slash (output_dir args))%bool
              then EmptyString else "/"%string).
  assert (Hnonempty : String.eqb (output_dir args ++ sep ++ label) EmptyString
                      = false).
  { apply String.eqb_neq. intros H. apply (f_equal String.length) in H.
    rewrite !length_append in H. destruct label; [discriminate |].
    simpl in H. lia. }
  assert (Hslash : ends_with_slash (output_dir args ++ sep ++ label) = false).
  { rewrite <- append_assoc, ends_with_slash_append by exact Hne. exact Htail. }
  rewrite Hnonempty, Hslash. simpl.
  now rewrite !append_assoc.
Qed.

Section Files.

Context {World Image CvImage : Type} {sim : Simulator World Image CvImage}
        {host : Unguarded World}.
Variable args : Args.

Lemma one_failed_frame dir name sign_state h ang idx (w : World) :
  let run := visit_pose args dir name sign_state h ang idx in
  value_of run w = (idx + grabbed_frames (trace_of run w))%nat /\
  (shots_per_pose args = 3%Z ->
   failed_frames (trace_of run w) = 1%nat ->
   failed_writes (trace_of run w) = 0%nat ->
   files_written (trace_of run w) =
     [file_path dir name (idx + 1); file_path dir name (idx + 2)] /\
   NoDup (files_written (trace_of run w)) /\
   List.length (files_written (trace_of run w)) = 2%nat /\
   value_of run w = (idx + 2)%nat).
Proof.
  intros run.
  destruct (visit_pose_trace args dir name sign_state h ang idx w)
    as (r & rest & _ & _ & (Hpaths & Hidx & Hgrab) & Hreq).
  fold run in Hpaths, Hidx, Hgrab, Hreq.
  split; [lia |].
  intros Hshots Hfail Hwrites.
  pose proof (frames_partition (trace_of run w)) as Hpart.
  rewrite Hshots in Hreq.
  destruct r; simpl in Hreq; [| lia].
  assert (Hn : List.length (writes (trace_of run w)) = 2%nat) by lia.
  assert (Hsaved : files_written (trace_of run w) =
                   [file_path dir name (idx + 1); file_path dir name (idx + 2)]).
  { unfold files_written, failed_writes in *.
    rewrite (no_failed_write_all_saved _ Hwrites), Hpaths, Hn. simpl.
    now rewrite !Nat.add_succ_r, Nat.add_0_r. }
  rewrite Hsaved. repeat split; try lia.
  change [file_path dir name (idx + 1); file_path dir name (idx + 2)]
    with (map (file_path dir name) [(idx + 1)%nat; (idx + 2)%nat]).
  apply NoDup_map_inj; [apply file_path_inj |].
  repeat constructor; simpl; intuition lia.
Qed.

(** C6: at any pose the index advances by the number of frames grabbed,
    so a failed frame request does not advance it; with three shots per
    pose, one failed frame request and no failed write, exactly two files
    are written, to two different paths, those of the two indices that
    follow the index the pose started with, and the index advances by
    two.  This holds of the pose as [main] runs it and of the pose as it
    runs when an uncaught exception may end it: a pose at which a frame
    was requested has come past its settle delay, so it returns, with
    the index advanced by two. *)
Theorem one_failed_frame_of_three dir name sign_state h ang idx (w : World) :
  let run := visit_pose args dir name sign_state h ang idx in
  let real := Uncaught.visit_pose args dir name sign_state h ang idx in
  value_of run w = (idx + grabbed_frames (trace_of run w))%nat /\
  (shots_per_pose args = 3%Z ->
   failed_frames (trace_of run w) = 1%nat ->
   failed_writes (trace_of run w) = 0%nat ->
   files_written (trace_of run w) =
     [file_path dir name (idx + 1); file_path dir name (idx + 2)] /\
   NoDup (files_written (trace_of run w)) /\
   List.length (files_written (trace_of run w)) = 2%nat /\
   value_of run w = (idx + 2)%nat) /\
  (shots_per_pose args = 3%Z ->
   failed_frames (Uncaught.trace_of real w) = 1%nat ->
   failed_writes (Uncaught.trace_of real w) = 0%nat ->
   Uncaught.ending_of real w = Completed (idx + 2)%nat /\
   files_written (Uncaught.trace_of real w) =
     [file_path dir name (idx + 1); file_path dir name (idx + 2)] /\
   NoDup (files_written (Uncaught.trace_of real w))).
Proof.
  intros run real.
  destruct (one_failed_frame dir name sign_state h ang idx w) as [Hidx Hrun].
  split; [exact Hidx |]. split; [exact Hrun |].
  intros Hshots Hfail Hwrites.
  pose proof (agrees_visit_pose args dir name sign_state h ang idx w) as Hag.
  fold real in Hag. unfold Uncaught.trace_of, Uncaught.ending_of in *.
  destruct (real w) as [[[i |] w'] t] eqn:Hreal; simpl in *.
  - destruct (run_parts _ _ _ _ _ Hag) as (Hv & _ & Ht).
    unfold run in *. rewrite Ht in Hrun.
    destruct (Hrun Hshots Hfail Hwrites) as (Hf & Hd & _ & Hi).
    rewrite <- Hv, Hi. split; [reflexivity | now split].
  - exfalso. unfold real, Uncaught.visit_pose, Uncaught.bind, Uncaught.guarded,
      Uncaught.call_sleep, Uncaught.take_shots, call_set_state in Hreal.
    destruct (set_state (car_model_state args sign_state h ang) w)
      as [[u |] w1]; simpl in Hreal; [| discriminate].
    destruct (sleep_raises (sleep args) w1); simpl in Hreal.
    + injection Hreal as _ <-. discriminate Hfail.
    + destruct (Uncaught.guarded _ _) as [[[j |] w2] t2] eqn:Hg in Hreal;
        [discriminate |].
      unfold Uncaught.guarded in Hg.
      destruct (for_each _ _ _ _) as [[j w3] t3] in Hg. discriminate.
Qed.

(** X13: within the sweep of one sign no two [imwrite] calls are given
    the same path: a capture never overwrites another capture of the same
    sign made in the same run. *)
Theorem sign_paths_distinct dir name (w : World) :
  NoDup (map fst (writes (trace_of (capture_sign args dir name) w))).
Proof.
  destruct (capture_sign_trace args dir name w) as (rest & Ht & _ & Hn).
  rewrite Ht. change (writes (GetState name "world"
                                (fst (get_state name "world" w)) :: rest))
    with (writes rest).
  destruct Hn as (Hpaths & _ & _). rewrite Hpaths.
  apply NoDup_map_inj; [apply file_path_inj | apply seq_NoDup].
Qed.

Lemma main_visits_total (w : World) :
  visits (trace_of (main args) w) =
  EnterGroup (output_dir args)
    :: match fst (wait_for_message (image_topic args) 5
                    (makedirs (output_dir args) w)) with
       | Returned _ =>
           EnterGroup (path_join (output_dir args) "STOP")
             :: map LookUp stop_signs
             ++ EnterGroup (path_join (output_dir args) "PARKING")
             :: map LookUp parking_signs
       | Raised => []
       end.
Proof.
  destruct (wait_for_message (image_topic args) 5
              (makedirs (output_dir args) w)) as [[probe |] w'] eqn:Hprobe.
  - rewrite (main_runs_sweep args w w' probe Hprobe).
    change (visits (EnsureDir (output_dir args)
                    :: WaitForMessage (image_topic args) 5 (Returned probe)
                    :: trace_of (sweep args targets) w'))
      with (EnterGroup (output_dir args)
            :: visits (trace_of (sweep args targets) w')).
    destruct (sweep_lookups args targets w') as (Hv & _).
    rewrite Hv. reflexivity.
  - unfold main, trace_of, bind, ensure_dir, call_wait_for_message.
    now rewrite Hprobe.
Qed.

(** X15: every path that a run hands to [imwrite] has the form
    [<output_dir><sep>LABEL/SIGN_<index>.png], where SIGN is one of the
    signs listed under LABEL, the index is at least 1, and [<sep>] is
    empty when [output_dir] is empty or ends in a slash and is a slash
    otherwise. *)
Theorem main_paths (w : World) :
  Forall (fun path =>
            exists target name idx,
              In target targets /\ In name (snd target) /\ (1 <= idx)%nat /\
              path = layout args (fst target) name idx)
         (map fst (writes (trace_of (main args) w))).
Proof.
  destruct (wait_for_message (image_topic args) 5
              (makedirs (output_dir args) w)) as [[probe |] w'] eqn:Hprobe.
  2:{ unfold main, trace_of, bind, ensure_dir, call_wait_for_message.
      rewrite Hprobe. constructor. }
  rewrite (main_runs_sweep args w w' probe Hprobe).
  change (writes (EnsureDir (output_dir args)
                  :: WaitForMessage (image_topic args) 5 (Returned probe)
                  :: trace_of (sweep args targets) w'))
    with (writes (trace_of (sweep args targets) w')).
  apply (sweep_by_signs args
    (fun tr => Forall (fun path =>
                 exists target name idx,
                   In target targets /\ In name (snd target) /\ (1 <= idx)%nat /\
                   path = layout args (fst target) name idx)
               (map fst (writes tr)))).
  - constructor.
  - intros t1 t2 H1 H2. rewrite writes_app, map_app. apply Forall_app. now split.
  - intros d. constructor.
  - intros label names name w0 Hin Hname.
    destruct (capture_sign_trace args (path_join (output_dir args) label) name w0)
      as (rest & Ht & _ & (Hpaths & _ & _)).
    rewrite Ht.
    change (writes (GetState name "world" (fst (get_state name "world" w0))
                    :: rest))
      with (writes rest).
    rewrite Hpaths. apply Forall_forall. intros path Hpath.
    apply in_map_iff in Hpath. destruct Hpath as (idx & <- & Hidx).
    apply in_seq in Hidx.
    exists (label, names), name, idx.
    repeat split; try assumption; try lia.
    assert (Hplain : Forall (fun t =>
              truthy (fst t) = true /\ starts_with_slash (fst t) = false /\
              ends_with_slash (fst t) = false /\
              Forall (fun n => starts_with_slash n = false) (snd t)) targets)
      by (repeat constructor).
    rewrite Forall_forall in Hplain.
    destruct (Hplain _ Hin) as (P1 & P2 & P3 & P4).
    rewrite Forall_forall in P4.
    apply file_path_layout; auto.
Qed.

End Files.

(** ** More on the pose of the car *)

Lemma car_direction (sx sy sz r h ang : R) :
  r <> 0 ->
  let yaw := car_yaw sx sy sz r h ang in
  - (r * cos ang) = Rabs r * cos yaw /\ - (r * sin ang) = Rabs r * sin yaw.
Proof.
  intros Hr yaw.
  set (dx := - (r * cos ang)). set (dy := - (r * sin ang)).
  assert (Hyaw : yaw = atan2 dy dx).
  { unfold yaw, car_yaw, car_position, dx, dy. f_equal; ring. }
  assert (Habs : Rabs r * Rabs r = r * r).
  { unfold Rabs. destruct (Rcase_abs r); ring. }
  assert (Hd : sqrt (dx * dx + dy * dy) = Rabs r).
  { apply sqrt_lem_1; [nra | apply Rabs_pos |].
    pose proof (sin2_cos2 ang) as H. unfold Rsqr in H.
    rewrite Habs. unfold dx, dy. nra. }
  assert (Hn : dx <> 0 \/ dy <> 0).
  { destruct (Req_dec dx 0) as [Hx | Hx]; [right | now left].
    intros Hy. apply (cos_sin_0 ang). unfold dx, dy in *. split; nra. }
  destruct (atan2_polar dx dy Hn) as [Hc Hs].
  rewrite Hd, <- Hyaw in Hc, Hs. now split.
Qed.

Lemma quat_heading (yaw : R) :
  cos (yaw * 0.5) * cos (yaw * 0.5) - sin (yaw * 0.5) * sin (yaw * 0.5) = cos yaw /\
  2 * sin (yaw * 0.5) * cos (yaw * 0.5) = sin yaw.
Proof.
  rewrite <- cos_2a, <- sin_2a.
  replace (2 * (yaw * 0.5)) with yaw by lra. now split.
Qed.

(** X16: the quaternion of [quat_from_yaw] is the rotation by [yaw] about
    the vertical axis: it turns the x axis to (cos yaw, sin yaw, 0), that
    is [w^2 - z^2 = cos yaw] and [2*z*w = sin yaw], with x = y = 0. *)
Theorem quat_from_yaw_heading (yaw : R) :
  let '(x, y, z, w) := quat_from_yaw yaw in
  x = 0 /\ y = 0 /\ w * w - z * z = cos yaw /\ 2 * z * w = sin yaw.
Proof.
  simpl. destruct (quat_heading yaw) as [Hc Hs]. now repeat split.
Qed.

(** X17: adding a full turn to the yaw negates the quaternion, which is
    the same rotation; adding two full turns gives the same quaternion. *)
Theorem quat_from_yaw_full_turn (yaw : R) :
  quat_from_yaw (yaw + 2 * PI) =
    (0, 0, - sin (yaw * 0.5), - cos (yaw * 0.5)) /\
  quat_from_yaw (yaw + 4 * PI) = quat_from_yaw yaw.
Proof.
  unfold quat_from_yaw. split.
  - replace ((yaw + 2 * PI) * 0.5) with (yaw * 0.5 + PI) by lra.
    now rewrite neg_sin, neg_cos.
  - replace ((yaw + 4 * PI) * 0.5) with (yaw * 0.5 + PI + PI) by lra.
    rewrite !neg_sin, !neg_cos, !Ropp_involutive. reflexivity.
Qed.

Section MorePoseGeometry.

Variable args : Args.
Variable sign_state : Pose.

Let sx := pos_x (position sign_state).
Let sy := pos_y (position sign_state).
Let sz := pos_z (position sign_state).

(** X18: for any radius other than zero, negative ones included, the
    heading encoded in the commanded quaternion is the direction from the
    commanded position to the sign: the vector from the car to the sign is
    [|radius|] times (w^2 - z^2, 2*z*w). *)
Theorem commanded_heading_faces_sign (h ang : R) :
  radius args <> 0 ->
  let ms := car_model_state args sign_state h ang in
  let c := position (pose ms) in
  let q := orientation (pose ms) in
  sx - pos_x c = Rabs (radius args) * (ori_w q * ori_w q - ori_z q * ori_z q) /\
  sy - pos_y c = Rabs (radius args) * (2 * ori_z q * ori_w q).
Proof.
  intros Hr ms c q.
  destruct (car_direction sx sy sz (radius args) h ang Hr) as [Hc Hs].
  destruct (quat_heading (car_yaw sx sy sz (radius args) h ang)) as [Qc Qs].
  unfold q, c, ms.
  pose proof (car_model_state_orientation args sign_state h ang) as Ho.
  cbv zeta in Ho. rewrite Ho, car_model_state_position.
  cbn [ori_w ori_z pos_x pos_y]. fold sx sy sz.
  rewrite Qc, Qs, <- Hc, <- Hs. split; ring.
Qed.

(** X19: with a radius of zero the car is put at the sign itself, raised
    by the height, with the identity orientation, whatever the angle. *)
Theorem zero_radius_pose (h ang : R) :
  radius args = 0 ->
  car_model_state args sign_state h ang =
  {| model_name := car_model args;
     pose := {| position := {| pos_x := sx; pos_y := sy; pos_z := sz + h |};
                orientation := {| ori_x := 0; ori_y := 0;
                                  ori_z := 0; ori_w := 1 |} |};
     reference_frame := "world" |}.
Proof.
  intros Hr. unfold car_model_state, car_position, quat_from_yaw.
  fold sx sy sz. rewrite Hr.
  replace (sx + 0 * cos ang) with sx by ring.
  replace (sy + 0 * sin ang) with sy by ring.
  replace (sy - sy) with 0 by ring. replace (sx - sx) with 0 by ring.
  assert (H0 : atan2 0 0 = 0).
  { unfold atan2. destruct (Rlt_dec 0 0) as [H | _]; [lra |]. reflexivity. }
  rewrite H0. replace (0 * 0.5) with 0 by lra.
  now rewrite sin_0, cos_0.
Qed.

(** X20: for a positive radius and an angle in (-PI, PI] the yaw is the
    angle turned by half a turn, brought back into (-PI, PI]:
    [angle + PI] for an angle of at most zero and [angle - PI] above. *)
Theorem car_yaw_exact (h ang : R) :
  0 < radius args ->
  - PI < ang <= PI ->
  car_yaw sx sy sz (radius args) h ang =
  if Rle_dec ang 0 then ang + PI else ang - PI.
Proof.
  intros Hr Hang.
  assert (Hne : radius args <> 0) by lra.
  destruct (car_direction sx sy sz (radius args) h ang Hne) as [Hc Hs].
  rewrite Rabs_pos_eq in Hc, Hs by lra.
  pose proof (atan2_bound (sy - (sy + radius args * sin ang))
                          (sx - (sx + radius args * cos ang))) as Hb.
  change (atan2 (sy - (sy + radius args * sin ang))
                (sx - (sx + radius args * cos ang)))
    with (car_yaw sx sy sz (radius args) h ang) in Hb.
  pose proof PI_RGT_0 as Hpi.
  destruct (Rle_dec ang 0) as [Hle | Hgt].
  - apply same_direction_principal; try lra.
    + rewrite neg_cos. nra.
    + rewrite neg_sin. nra.
  - apply same_direction_principal; try lra.
    + unfold Rminus. rewrite cos_plus, cos_neg, sin_neg, cos_PI, sin_PI. nra.
    + unfold Rminus. rewrite sin_plus, cos_neg, sin_neg, cos_PI, sin_PI. nra.
Qed.

End MorePoseGeometry.

(** ** More runs of the scripted simulator *)


Lemma commanded_heading_faces_sign_witness :
  radius default_args <> 0 /\
  INR 0 - pos_x (position (pose (car_model_state default_args (sign_pose_at 0)
                                   0.15 (radians 20))))
  = Rabs (radius default_args)
    * (ori_w (orientation (pose (car_model_state default_args (sign_pose_at 0)
                                   0.15 (radians 20))))
       * ori_w (orientation (pose (car_model_state default_args (sign_pose_at 0)
                                     0.15 (radians 20))))
       - ori_z (orientation (pose (car_model_state default_args (sign_pose_at 0)
                                     0.15 (radians 20))))
         * ori_z (orientation (pose (car_model_state default_args (sign_pose_at 0)
                                       0.15 (radians 20))))).
Proof.
  assert (H : radius default_args <> 0) by (simpl; lra).
  split; [exact H |].
  exact (proj1 (commanded_heading_faces_sign default_args (sign_pose_at 0)
                  0.15 (radians 20) H)).
Defined.

Lemma zero_radius_pose_witness :
  radius zero_radius_args = 0 /\
  position (pose (car_model_state zero_radius_args (sign_pose_at 3) 0.15
                    (radians 90)))
  = {| pos_x := INR 3; pos_y := 0; pos_z := 0 + 0.15 |}.
Proof.
  assert (H : radius zero_radius_args = 0) by reflexivity.
  split; [exact H |].
  exact (f_equal (fun ms => position (pose ms))
           (zero_radius_pose zero_radius_args (sign_pose_at 3) 0.15
              (radians 90) H)).
Defined.

Lemma car_yaw_exact_witness :
  (0 < radius default_args /\ - PI < radians (-20) <= PI) /\
  car_yaw (INR 0) 0 0 (radius default_args) 0.15 (radians (-20)) =
  (if Rle_dec (radians (-20)) 0 then radians (-20) + PI else radians (-20) - PI).
Proof.
  assert (H1 : 0 < radius default_args) by (simpl; lra).
  assert (H2 : - PI < radians (-20) <= PI)
    by (unfold radians; pose proof PI_RGT_0; lra).
  split; [now split |].
  exact (car_yaw_exact default_args (sign_pose_at 0) 0.15 (radians (-20)) H1 H2).
Defined.

(** ** Parsing the numbers *)

Lemma parse_each_raised (float : string -> Outcome R) (pieces : list string) :
  parse_each float pieces = Raised <->
  Exists (fun t => float t = Raised) pieces.
Proof.
  induction pieces as [| x l IH]; simpl.
  - split; [discriminate | intros H; inversion H].
  - destruct (float x) as [v |] eqn:Hx.
    + destruct (parse_each float l) as [vs |].
      * split; [discriminate |].
        intros H. inversion H as [? ? Hh | ? ? Ht]; subst.
        -- rewrite Hx in Hh. discriminate.
        -- apply IH in Ht. discriminate.
      * split; [intros _; apply Exists_cons_tl; now apply IH | reflexivity].
    + split; [intros _; now apply Exists_cons_hd | reflexivity].
Qed.

Lemma parse_each_returned (float : string -> Outcome R) (pieces : list string)
    (values : list R) :
  parse_each float pieces = Returned values <->
  Forall2 (fun t v => float t = Returned v) pieces values.
Proof.
  revert values. induction pieces as [| x l IH]; intros values; simpl.
  - split.
    + intros H. injection H as <-. constructor.
    + intros H. now inversion H.
  - destruct (float x) as [v |] eqn:Hx.
    + destruct (parse_each float l) as [vs |] eqn:Hl.
      * split.
        -- intros H. injection H as <-. constructor; [exact Hx |].
           now apply IH.
        -- intros H. inversion H as [| ? v' ? vs' Hh Ht]; subst.
           rewrite Hx in Hh. injection Hh as <-.
           apply IH in Ht. now injection Ht as <-.
      * split; [discriminate |].
        intros H. inversion H as [| ? v' ? vs' Hh Ht]; subst.
        apply IH in Ht. discriminate.
    + split; [discriminate |].
      intros H. inversion H as [| ? v' ? vs' Hh Ht]; subst.
      rewrite Hx in Hh. discriminate.
Qed.

(** X21: parsing a flag raises exactly when [float] rejects one of its
    tokens; otherwise it returns one number per token, in the order of
    the flag, and the angles are these numbers converted to radians. *)
Theorem parse_flag_outcome (float : string -> Outcome R) (flag : string) :
  (parse_heights float flag = Raised <->
   Exists (fun t => float t = Raised) (tokens flag)) /\
  (forall values,
     parse_heights float flag = Returned values <->
     Forall2 (fun t v => float t = Returned v) (tokens flag) values) /\
  parse_angles float flag =
    match parse_heights float flag with
    | Returned degs => Returned (map radians degs)
    | Raised => Raised
    end.
Proof.
  unfold parse_heights, parse_angles.
  split; [apply parse_each_raised |].
  split; [intros values; apply parse_each_returned | reflexivity].
Qed.

(** A flag whose second entry is not a number, for a [float] that knows
    no number at all. *)
Lemma parse_flag_outcome_witness :
  Exists (fun t => (fun _ : string => @Raised R) t = Raised)
         (tokens "0.15, abc"%string) /\
  parse_heights (fun _ => Raised) "0.15, abc"%string = Raised.
Proof.
  assert (H : Exists (fun t => (fun _ : string => @Raised R) t = Raised)
                     (tokens "0.15, abc"%string))
    by (apply Exists_cons_hd; reflexivity).
  split; [exact H |].
  exact (proj2 (proj1 (parse_flag_outcome (fun _ => Raised) "0.15, abc"%string)) H).
Defined.

(** Three shots: the second frame request times out. *)
Lemma one_failed_frame_of_three_witness :
  let run := visit_pose (single_pose_args 3) stop_dir "STOP_A"
                        (sign_pose_at 0) 0 0 7 in
  let real := Uncaught.visit_pose (host := ScriptedHosts.obliging)
                (single_pose_args 3) stop_dir "STOP_A" (sign_pose_at 0) 0 0 7 in
  let w := start [true; true; true; false; true; true] in
  (shots_per_pose (single_pose_args 3) = 3%Z /\
   failed_frames (trace_of run w) = 1%nat /\
   failed_writes (trace_of run w) = 0%nat /\
   failed_frames (Uncaught.trace_of real w) = 1%nat /\
   failed_writes (Uncaught.trace_of real w) = 0%nat) /\
  files_written (trace_of run w) =
    ["dataset/STOP/STOP_A_0008.png"; "dataset/STOP/STOP_A_0009.png"]%string /\
  NoDup (files_written (trace_of run w)) /\
  value_of run w = 9%nat /\
  Uncaught.ending_of real w = Completed 9%nat.
Proof.
  intros run real w.
  assert (H1 : shots_per_pose (single_pose_args 3) = 3%Z) by reflexivity.
  assert (H2 : failed_frames (trace_of run w) = 1%nat) by reflexivity.
  assert (H3 : failed_writes (trace_of run w) = 0%nat) by reflexivity.
  assert (H4 : failed_frames (Uncaught.trace_of real w) = 1%nat) by reflexivity.
  assert (H5 : failed_writes (Uncaught.trace_of real w) = 0%nat) by reflexivity.
  split; [now repeat split |].
  destruct (one_failed_frame_of_three (host := ScriptedHosts.obliging)
              (single_pose_args 3) stop_dir "STOP_A" (sign_pose_at 0) 0 0 7 w)
    as (_ & Hrun & Hreal).
  destruct (Hrun H1 H2 H3) as (Hf & Hd & _ & Hv).
  destruct (Hreal H1 H4 H5) as (He & _ & _).
  split; [exact Hf | split; [exact Hd | split; [exact Hv | exact He]]].
Defined.

(** ** What is done after a missing sign *)

Section Continuation.

Context {World Image CvImage : Type} {sim : Simulator World Image CvImage}
        {host : Unguarded World}.
Variable args : Args.

Let Trace := Trace Image CvImage.

Lemma clean_no_failed_write (tr : Trace) :
  clean tr = true -> failed_writes tr = 0%nat.
Proof.
  unfold clean, failed_writes.
  induction tr as [| e tr IH]; simpl; [reflexivity |].
  intros H. apply andb_prop in H. destruct H as [He H].
  destruct e as [d | t o r | n f r | ms r | secs | pth img r]; simpl;
    try now apply IH.
  destruct r; simpl in *; [now apply IH | discriminate].
Qed.

Lemma clean_poses_files dir name sign_state (grid : list (R * R)) idx (w : World) :
  let tr := trace_of (for_each grid
                        (fun ha => visit_pose args dir name sign_state
                                     (fst ha) (snd ha)) idx) w in
  clean tr = true ->
  List.length (files_written tr) =
  (List.length (pose_commands tr) * Z.to_nat (shots_per_pose args))%nat.
Proof.
  apply (poses_by_pieces args
    (fun tr => clean tr = true ->
               List.length (files_written tr) =
               (List.length (pose_commands tr)
                * Z.to_nat (shots_per_pose args))%nat)).
  - reflexivity.
  - intros t1 t2 H1 H2 H. rewrite clean_app in H.
    apply andb_prop in H. destruct H as [C1 C2].
    rewrite files_written_app, pose_commands_app, !length_app, (H1 C1), (H2 C2).
    lia.
  - intros h ang i w0.
    destruct (visit_pose_cases args dir name sign_state h ang i w0)
      as [-> | (u & shots & -> & _ & _ & S3 & _ & _ & _ & S7)].
    + discriminate.
    + intros H.
      change (files_written
                (SetState (car_model_state args sign_state h ang) (Returned u)
                 :: Sleep (sleep args) :: shots))
        with (files_written shots).
      change (pose_commands
                (SetState (car_model_state args sign_state h ang) (Returned u)
                 :: Sleep (sleep args) :: shots))
        with (car_model_state args sign_state h ang :: pose_commands shots).
      rewrite S3. simpl. rewrite (S7 H). lia.
Qed.

(** The files of a sign when nothing raises. *)
Lemma clean_sign_files dir name (w : World) :
  let tr := trace_of (capture_sign args dir name) w in
  clean tr = true ->
  files_written tr =
  map (file_path dir name)
      (seq 1 (List.length (heights args) * List.length (angles_deg args)
              * Z.to_nat (shots_per_pose args))).
Proof.
  intros tr Hclean. subst tr.
  destruct (get_state name "world" w) as [[sign_state |] w'] eqn:Hq.
  - destruct (run_parts _ _ _ _ _ (capture_sign_found args dir _ _ _ _ Hq))
      as (_ & _ & Ht).
    rewrite Ht in *.
    change (files_written (GetState name "world" (Returned sign_state)
                           :: trace_of (sweep_poses args dir name sign_state) w'))
      with (files_written (trace_of (sweep_poses args dir name sign_state) w')).
    change (clean (GetState name "world" (Returned sign_state)
                   :: trace_of (sweep_poses args dir name sign_state) w'))
      with (clean (trace_of (sweep_poses args dir name sign_state) w'))
      in Hclean.
    destruct (sweep_poses_trace args dir name sign_state w')
      as ((Hpaths & _ & _) & (_ & Hpc & _ & _)).
    pose proof (clean_poses_files dir name sign_state (pose_grid args) 0 w')
      as Hcount.
    cbv zeta in Hcount.
    rewrite <- (trace_of_run_eq _ _ _ (sweep_poses_flat args dir name sign_state w'))
      in Hcount.
    specialize (Hcount Hclean).
    pose proof (clean_no_failed_write _ Hclean) as Hnone.
    rewrite Hpc in Hcount. simpl in Hcount.
    unfold pose_grid, angles in Hcount.
    rewrite length_map, length_prod, length_map in Hcount.
    unfold files_written, failed_writes in *.
    rewrite (no_failed_write_all_saved _ Hnone) in *.
    rewrite length_map in Hcount. rewrite Hpaths, Hcount. reflexivity.
  - destruct (run_parts _ _ _ _ _ (capture_sign_missing args dir _ _ _ Hq))
      as (_ & _ & Ht).
    rewrite Ht in Hclean. discriminate.
Qed.

Lemma clean_signs_files dir (names : list string) (w : World) :
  let tr := trace_of (for_each names
                        (fun sign_name _ => capture_sign args dir sign_name) tt) w in
  clean tr = true ->
  files_written tr =
  flat_map (fun sign_name =>
              map (file_path dir sign_name)
                  (seq 1 (List.length (heights args)
                          * List.length (angles_deg args)
                          * Z.to_nat (shots_per_pose args)))) names.
Proof.
  revert w. induction names as [| name l IH]; intros w tr; subst tr; simpl.
  - reflexivity.
  - rewrite trace_of_bind.
    destruct (value_of (capture_sign args dir name) w).
    intros H. rewrite clean_app in H. apply andb_prop in H.
    destruct H as [H1 H2].
    rewrite files_written_app, (clean_sign_files dir name w H1).
    f_equal. now apply IH.
Qed.

Lemma clean_sweep_files groups (w : World) :
  let tr := trace_of (sweep args groups) w in
  clean tr = true ->
  files_written tr =
  flat_map (fun g =>
    flat_map (fun sign_name =>
                map (file_path (path_join (output_dir args) (fst g)) sign_name)
                    (seq 1 (List.length (heights args)
                            * List.length (angles_deg args)
                            * Z.to_nat (shots_per_pose args)))) (snd g)) groups.
Proof.
  unfold sweep. revert w.
  induction groups as [| [label names] gs IH]; intros w; simpl.
  - reflexivity.
  - rewrite !trace_of_bind, ?world_after_bind.
    repeat match goal with
           | |- context [for_each _ _ (value_of ?m ?w0)] =>
               destruct (value_of m w0)
           end.
    intros H. rewrite !clean_app in H.
    apply andb_prop in H. destruct H as [H12 H3].
    apply andb_prop in H12. destruct H12 as [_ H2].
    rewrite !files_written_app.
    rewrite (clean_signs_files _ names _ H2).
    cbv zeta in IH. rewrite (IH _ H3). reflexivity.
Qed.

(** C7: a sign whose pose query raises contributes that one query to the
    run and nothing else, no file and no pose command; the run goes on
    from the world the failed query left.  Every sign listed after it in
    its group and every sign of the later groups is then looked up, in
    the listed order, and each of them that is found is swept over all
    heights and angles; when nothing raises in that rest of the run, each
    of these signs gets its files 1 to heights*angles*shots.  A run that
    no uncaught exception ends is this very run, and what a run that
    dies has done is a beginning of it. *)
Theorem missing_sign_is_skipped earlier label pre name post later
    (w w1 : World) :
  get_state name "world" (world_after (before_sign args earlier label pre) w)
    = (Raised, w1) ->
  let whole :=
    trace_of (sweep args (earlier ++ (label, pre ++ name :: post) :: later)) w in
  let before := trace_of (before_sign args earlier label pre) w in
  let after := trace_of (after_sign args label post later) w1 in
  let plan := fun q : string * Outcome Pose =>
    LookUp (fst q)
      :: match snd q with
         | Returned sign_state =>
             map (fun ha => MoveTo (car_model_state args sign_state
                                      (fst ha) (snd ha)))
                 (list_prod (heights args) (map radians (angles_deg args)))
         | Raised => []
         end in
  let files_of := fun (l sign_name : string) =>
    map (file_path (path_join (output_dir args) l) sign_name)
        (seq 1 (List.length (heights args) * List.length (angles_deg args)
                * Z.to_nat (shots_per_pose args))) in
  whole = before ++ [GetState name "world" Raised] ++ after /\
  files_written whole = files_written before ++ files_written after /\
  pose_commands whole = pose_commands before ++ pose_commands after /\
  map fst (queries after) = post ++ flat_map snd later /\
  steps after = flat_map plan (queries after) /\
  (clean after = true ->
   files_written after =
   flat_map (files_of label) post
   ++ flat_map (fun g => flat_map (files_of (fst g)) (snd g)) later) /\
  (let real :=
     Uncaught.sweep args (earlier ++ (label, pre ++ name :: post) :: later) in
   (exists rest, whole = Uncaught.trace_of real w ++ rest) /\
   (Uncaught.ending_of real w = Completed tt ->
    Uncaught.trace_of real w = whole)).
Proof.
  intros Hq whole before after plan files_of.
  assert (Hreal :
    let real :=
      Uncaught.sweep args (earlier ++ (label, pre ++ name :: post) :: later) in
    (exists rest, whole = Uncaught.trace_of real w ++ rest) /\
    (Uncaught.ending_of real w = Completed tt ->
     Uncaught.trace_of real w = whole)).
  { intros real.
    destruct (agrees_traces _ _ w
                (agrees_sweep args
                   (earlier ++ (label, pre ++ name :: post) :: later)))
      as (Hpre & Hdone).
    split; [exact Hpre | apply Hdone]. }
  assert (Hwhole : whole = before ++ [GetState name "world" Raised] ++ after).
  { unfold whole.
    rewrite (trace_of_run_eq _ _ _ (sweep_focus args _ _ _ _ _ _ _)).
    rewrite trace_of_bind, trace_of_bind. fold before.
    destruct (run_parts _ _ _ _ _
                (capture_sign_missing args (path_join (output_dir args) label)
                   _ _ _ Hq)) as (_ & Hw & Ht).
    now rewrite Hw, Ht. }
  split; [exact Hwhole |].
  split; [rewrite Hwhole, !files_written_app; reflexivity |].
  split; [rewrite Hwhole, !pose_commands_app; reflexivity |].
  assert (Hafter : after =
    trace_of (for_each post
                (fun sign_name _ =>
                   capture_sign args (path_join (output_dir args) label) sign_name)
                tt) w1
    ++ trace_of (sweep args later)
         (world_after (for_each post
                (fun sign_name _ =>
                   capture_sign args (path_join (output_dir args) label) sign_name)
                tt) w1)).
  { unfold after, after_sign. now rewrite trace_of_bind. }
  destruct (signs_order args (path_join (output_dir args) label) post w1)
    as (_ & Hq1 & Hp1).
  destruct (sweep_follows_plan args later
              (world_after (for_each post
                 (fun sign_name _ =>
                    capture_sign args (path_join (output_dir args) label) sign_name)
                 tt) w1)) as (_ & Hq2 & Hp2).
  split; [rewrite Hafter, queries_app, map_app, Hq1, Hq2; reflexivity |].
  split; [| split; [| exact Hreal]].
  - pose proof (follows_plan_app args _ _ Hp1 Hp2) as Hp.
    rewrite <- Hafter in Hp. unfold follows_plan in Hp. rewrite Hp.
    apply flat_map_ext. intros [n [sign_state |]]; simpl; [| reflexivity].
    unfold plan, pose_grid, angles. simpl. now rewrite map_map.
  - intros Hclean. rewrite Hafter in *. rewrite clean_app in Hclean.
    apply andb_prop in Hclean. destruct Hclean as [C1 C2].
    rewrite files_written_app.
    rewrite (clean_signs_files _ post w1 C1).
    pose proof (clean_sweep_files later _ C2) as Hl. cbv zeta in Hl.
    rewrite Hl. reflexivity.
Qed.

End Continuation.

(** [STOP_A] is missing; [STOP_C], listed after it, is captured. *)
Lemma missing_sign_is_skipped_witness :
  let w := start [false] in
  let w1 := {| script := []; clock := 1 |} in
  let whole :=
    trace_of (sweep (single_pose_args 1)
                ([] ++ ("STOP"%string, [] ++ "STOP_A"%string :: ["STOP_C"%string])
                    :: [])) w in
  let after := trace_of (after_sign (single_pose_args 1) "STOP"
                           ["STOP_C"%string] []) w1 in
  (get_state "STOP_A" "world"
     (world_after (before_sign (single_pose_args 1) [] "STOP" []) w)
     = (Raised, w1) /\
   clean after = true) /\
  whole =
    trace_of (before_sign (single_pose_args 1) [] "STOP" []) w
    ++ [GetState "STOP_A" "world" Raised] ++ after /\
  map fst (queries after) = ["STOP_C"%string] /\
  files_written after = ["dataset/STOP/STOP_C_0001.png"%string] /\
  files_written whole = ["dataset/STOP/STOP_C_0001.png"%string].
Proof.
  intros w w1 whole after.
  assert (H : get_state "STOP_A" "world"
                (world_after (before_sign (single_pose_args 1) [] "STOP" []) w)
              = (Raised, w1)) by reflexivity.
  assert (Hc : clean after = true) by reflexivity.
  split; [now split |].
  destruct (missing_sign_is_skipped (host := ScriptedHosts.obliging)
              (single_pose_args 1) [] "STOP" []
              "STOP_A" ["STOP_C"%string] [] w w1 H)
    as (H1 & H2 & _ & H4 & _ & H6 & _).
  split; [exact H1 |].
  split; [exact H4 |].
  split; [exact (H6 Hc) |].
  fold whole after in H2. rewrite H2. exact (H6 Hc).
Defined.

(** ** The run with uncaught exceptions *)

Section UncaughtRuns.

Context {World Image CvImage : Type} {sim : Simulator World Image CvImage}
        {host : Unguarded World}.
Variable args : Args.

Let Trace := Trace Image CvImage.
Let M := M World Image CvImage.
Let X := Uncaught.X World Image CvImage.

(** *** The pace of a run *)









(** X8: a sweep, even one that dies, commands at most
    [signs * heights * angles] poses and attempts at most
    [signs * heights * angles * shots_per_pose] writes; a sweep that
    completes commands exactly [heights * angles] poses for every sign it
    finds and calls [imwrite] at most [shots_per_pose] times per pose. *)
Theorem sweep_size groups (w : World) :
  let tr := Uncaught.trace_of (Uncaught.sweep args groups) w in
  let grid := (List.length (heights args) * List.length (angles_deg args))%nat in
  (List.length (pose_commands tr)
   <= List.length (flat_map snd groups) * grid)%nat /\
  (List.length (writes tr)
   <= List.length (flat_map snd groups) * grid
      * Z.to_nat (shots_per_pose args))%nat /\
  (Uncaught.ending_of (Uncaught.sweep args groups) w = Completed tt ->
   List.length (pose_commands tr) = (found_signs tr * grid)%nat /\
   (List.length (writes tr)
    <= List.length (pose_commands tr) * Z.to_nat (shots_per_pose args))%nat).
Proof.
  intros tr grid.
  destruct (agrees_traces _ _ w (agrees_sweep args groups)) as ([rest Hrest] & Hdone).
  pose proof (sweep_bounds args groups w) as Hb. cbv zeta in Hb.
  fold grid in Hb. destruct Hb as (B1 & B2 & B3 & B4).
  assert (Hpc : (List.length (pose_commands tr)
                 <= List.length (pose_commands (trace_of (sweep args groups) w)))%nat).
  { rewrite Hrest, pose_commands_app, length_app. fold tr. lia. }
  assert (Hwr : (List.length (writes tr)
                 <= List.length (writes (trace_of (sweep args groups) w)))%nat).
  { rewrite Hrest, writes_app, length_app. fold tr. lia. }
  assert (Hfound : (found_signs (trace_of (sweep args groups) w) * grid
                    <= List.length (flat_map snd groups) * grid)%nat)
    by now apply Nat.mul_le_mono_r.
  split; [lia |]. split; [lia |].
  intros Hend. specialize (Hdone tt Hend). fold tr in Hdone.
  rewrite Hdone. now split.
Qed.


(** X10: with a zero or negative [shots_per_pose] a sweep requests no
    frame and writes nothing; if it completes, it has looked every sign
    up in the listed order and commanded [heights * angles] poses for
    every sign it found. *)
Theorem no_shots_no_frames groups (w : World) :
  (shots_per_pose args <= 0)%Z ->
  let tr := Uncaught.trace_of (Uncaught.sweep args groups) w in
  frame_requests tr = [] /\
  writes tr = [] /\
  (Uncaught.ending_of (Uncaught.sweep args groups) w = Completed tt ->
   map fst (queries tr) = flat_map snd groups /\
   List.length (pose_commands tr) =
     (found_signs tr * (List.length (heights args)
                        * List.length (angles_deg args)))%nat).
Proof.
  intros Hshots tr.
  destruct (agrees_traces _ _ w (agrees_sweep args groups)) as ([rest Hrest] & Hdone).
  pose proof (no_shots_total args groups w Hshots) as Ht. cbv zeta in Ht.
  destruct Ht as (T1 & T2 & T3 & T4).
  fold tr in Hrest.
  rewrite Hrest, frame_requests_app in T1. apply app_eq_nil in T1.
  rewrite Hrest, writes_app in T2. apply app_eq_nil in T2.
  split; [apply T1 |]. split; [apply T2 |].
  intros Hend. specialize (Hdone tt Hend). fold tr in Hdone.
  rewrite Hdone. now split.
Qed.

(** X14: every run begins by creating the output directory.  A run that
    completes has then probed the image topic and, if the probe
    returned, created the STOP directory and looked up its seven signs,
    then the PARKING directory and its four signs, in this order,
    whatever the look-ups, pose commands, frame requests and writes did;
    if the probe raised, it has visited nothing more.  What a run that
    dies has visited is a beginning of that list. *)
Theorem main_visits (w : World) :
  let tr := Uncaught.trace_of (Uncaught.main args) w in
  let all :=
    EnterGroup (output_dir args)
      :: match fst (wait_for_message (image_topic args) 5
                      (makedirs (output_dir args) w)) with
         | Returned _ =>
             EnterGroup (path_join (output_dir args) "STOP")
               :: map LookUp stop_signs
               ++ EnterGroup (path_join (output_dir args) "PARKING")
               :: map LookUp parking_signs
         | Raised => []
         end in
  (exists rest, visits tr ++ rest = all) /\
  (exists rest, visits tr = EnterGroup (output_dir args) :: rest) /\
  (Uncaught.ending_of (Uncaught.main args) w = Completed tt ->
   visits tr = all).
Proof.
  intros tr all.
  destruct (agrees_traces _ _ w (agrees_main args)) as ([rest Hrest] & Hdone).
  pose proof (main_visits_total args w) as Ht. fold all in Ht.
  fold tr in Hrest. rewrite Hrest, visits_app in Ht.
  split; [now exists (visits rest) |].
  split.
  - unfold tr, Uncaught.trace_of, Uncaught.main, Uncaught.bind,
      Uncaught.ensure_dir.
    destruct (makedirs_raises (output_dir args) w); simpl; [now eexists |].
    destruct (Uncaught.guarded (call_wait_for_message (image_topic args) 5)
                (makedirs (output_dir args) w)) as [[[probe |] w1] t1];
      simpl; [| now eexists].
    destruct probe as [img |];
      [destruct (Uncaught.sweep args targets w1) as [[e w2] t2] |];
      simpl; now eexists.
  - intros Hend. specialize (Hdone tt Hend). fold tr in Hdone.
    rewrite Hdone. apply main_visits_total.
Qed.

End UncaughtRuns.

(** ** Runs that complete and runs that die *)

Lemma sweep_size_witness :
  let groups := [("STOP"%string, ["STOP_A"; "STOP_C"]%string)] in
  let run := Uncaught.sweep (host := ScriptedHosts.obliging)
               (single_pose_args 2) groups in
  let tr := Uncaught.trace_of run (start [false]) in
  Uncaught.ending_of run (start [false]) = Completed tt /\
  List.length (pose_commands tr) = (found_signs tr * (1 * 1))%nat.
Proof.
  intros groups run tr.
  assert (H : Uncaught.ending_of run (start [false]) = Completed tt)
    by reflexivity.
  split; [exact H |].
  exact (proj1 (proj2 (proj2
    (sweep_size (host := ScriptedHosts.obliging) (single_pose_args 2) groups
       (start [false]))) H)).
Defined.


Lemma no_shots_no_frames_witness :
  let groups := [("STOP"%string, ["STOP_A"; "STOP_C"]%string)] in
  let run := Uncaught.sweep (host := ScriptedHosts.obliging)
               (single_pose_args (-1)) groups in
  let tr := Uncaught.trace_of run (start []) in
  ((shots_per_pose (single_pose_args (-1)) <= 0)%Z /\
   Uncaught.ending_of run (start []) = Completed tt) /\
  frame_requests tr = [] /\ writes tr = [] /\
  map fst (queries tr) = ["STOP_A"; "STOP_C"]%string.
Proof.
  intros groups run tr.
  assert (H1 : (shots_per_pose (single_pose_args (-1)) <= 0)%Z)
    by (simpl; lia).
  assert (H2 : Uncaught.ending_of run (start []) = Completed tt) by reflexivity.
  split; [now split |].
  destruct (no_shots_no_frames (host := ScriptedHosts.obliging)
              (single_pose_args (-1)) groups (start []) H1) as (F1 & F2 & F3).
  split; [exact F1 |]. split; [exact F2 |].
  exact (proj1 (F3 H2)).
Defined.

Lemma main_visits_witness :
  let run := Uncaught.main (host := ScriptedHosts.obliging) default_args in
  Uncaught.ending_of run (start [true; false]) = Completed tt /\
  visits (Uncaught.trace_of run (start [true; false])) =
  EnterGroup "dataset"
    :: EnterGroup "dataset/STOP" :: map LookUp stop_signs
    ++ EnterGroup "dataset/PARKING" :: map LookUp parking_signs.
Proof.
  intros run.
  assert (H : Uncaught.ending_of run (start [true; false]) = Completed tt)
    by reflexivity.
  split; [exact H |].
  exact (proj2 (proj2 (main_visits (host := ScriptedHosts.obliging)
                         default_args (start [true; false]))) H).
Defined.

(** With a delay that [time.sleep] refuses, the run dies in the settle
    delay of the first accepted pose and has written nothing; with an
    empty output directory it dies in the first [os.makedirs]. *)
Example refused_sleep_ends_the_run :
  let run := Uncaught.main (host := ScriptedHosts.negative_sleep) default_args in
  Uncaught.ending_of run (start []) = Died /\
  visits (Uncaught.trace_of run (start [])) =
    [EnterGroup "dataset"; EnterGroup "dataset/STOP"; LookUp "STOP_A"] /\
  List.length (pose_commands (Uncaught.trace_of run (start []))) = 1%nat /\
  frame_requests (Uncaught.trace_of run (start [])) = [true] /\
  writes (Uncaught.trace_of run (start [])) = [].
Proof. repeat split; reflexivity. Qed.

Example empty_output_dir_ends_the_run :
  let run := Uncaught.main (host := ScriptedHosts.no_empty_path)
               ScriptedHosts.empty_output_args in
  Uncaught.ending_of run (start []) = Died /\
  visits (Uncaught.trace_of run (start [])) = [EnterGroup EmptyString] /\
  frame_requests (Uncaught.trace_of run (start [])) = [].
Proof. repeat split; reflexivity. Qed.
